(** * Face tracking over MQTT with a pan servo

    A shallow embedding of the two stateful parts of the repository:

    - [pc_vision/movement_detector.py]: the classifier that turns a frame
      result into a movement command, with hysteresis and an anti-flooding
      gate (module [MovementDetector]);
    - [esp8266/main.py] and [esp8266/config.py]: the servo driver, the
      scanner that sweeps while no face is seen, the MQTT message handler
      and the polling loop (module [Esp8266]).

    Conventions.  Python [int] is [Z].  Python [float] is an exact rational
    [Q]: arithmetic and comparisons are the ones of the source, binary64
    rounding is not modelled.  Clock readings ([time.time()],
    [time.ticks_ms()]) are inputs of the functions that read them.  A raised
    exception is an explicit result.  The two module-level objects of
    [main.py] ([servo], [scanner]) are the fields of one [World] record that
    every method transforms; the world also carries, in program order, the
    calls made on the scanner switch, the PWM pin and the console. *)

From Stdlib Require Import ZArith QArith Qround Qabs Lia List Bool.
From stdpp Require Import gmap strings.
Import ListNotations.

Set Warnings "-register-all".

(** ** Python built-ins used by the sources *)

Inductive exn : Type :=
  | ValueError | KeyError | AttributeError | TypeError | ZeroDivisionError.

(** [int(x)] on a float: truncation towards zero. *)
Definition py_int (x : Q) : Z := Z.quot (Qnum x) (Zpos (Qden x)).

(** [min(a, b)] keeps its first argument unless the second is smaller. *)
Definition py_min (a b : Q) : Q := if Qle_bool a b then a else b.

(** [a < b] on floats, as a boolean. *)
Definition Qlt_bool (a b : Q) : bool := negb (Qle_bool b a).

(** Nearest integer, ties to the even neighbour. *)
Definition round_half_even (x : Q) : Z :=
  let f := Qfloor x in
  match (x - inject_Z f ?= 1 # 2)%Q with
  | Lt => f
  | Gt => (f + 1)%Z
  | Eq => if Z.even f then f else (f + 1)%Z
  end.

(** [round(x, ndigits)]. *)
Definition py_round (x : Q) (ndigits : nat) : Q :=
  let scale := inject_Z (10 ^ Z.of_nat ndigits) in
  (inject_Z (round_half_even (x * scale)) / scale)%Q.

(** A call that returns a value or raises. *)
Inductive result (A : Type) : Type :=
  | Ok (a : A)
  | Raise (e : exn).

Arguments Ok {A} a.
Arguments Raise {A} e.

(** ** pc_vision: the movement detector *)

Module MovementDetector.

(** The four movement states. *)
Inductive Movement : Type := MOVE_LEFT | MOVE_RIGHT | CENTERED | NO_FACE.

Definition Movement_eqb (a b : Movement) : bool :=
  match a, b with
  | MOVE_LEFT, MOVE_LEFT | MOVE_RIGHT, MOVE_RIGHT
  | CENTERED, CENTERED | NO_FACE, NO_FACE => true
  | _, _ => false
  end.

(** [prev == movement], where [prev] is [None] or a movement. *)
Definition prev_is (prev : option Movement) (movement : Movement) : bool :=
  match prev with
  | Some p => Movement_eqb p movement
  | None => false
  end.

(** The keys of [frame_result] that [compute] reads; [None] is a key that
    is absent (or, for the box, present with the value [None]). *)
Record FrameResult : Type := {
  state : option string;
  face_box : option (Q * Q * Q * Q);
  lock_confidence : option Q
}.

(** Fields of [class MovementDetector]. *)
Record Detector : Type := {
  dead_zone_ratio : Q;
  hysteresis_ratio : Q;
  _prev_state : option Movement;
  _last_publish_time : Q
}.

(** The dictionary that [compute] returns. *)
Record Event : Type := {
  status : Movement;
  confidence : Q;
  offset : Q;
  timestamp : Z
}.

(** [MovementDetector.__init__] *)
Definition init (dead_zone_ratio hysteresis_ratio : Q) : Detector :=
  {| dead_zone_ratio := dead_zone_ratio;
     hysteresis_ratio := hysteresis_ratio;
     _prev_state := None;
     _last_publish_time := 0 |}.

Section Compute.

(** Imported from [pc_vision/config.py], which is not among the sources. *)
Variable MIN_PUBLISH_INTERVAL : Q.

Local Open Scope Q_scope.

(** The threshold chosen by the hysteresis test. *)
Definition threshold (self : Detector) : Q :=
  if prev_is (_prev_state self) CENTERED
  then dead_zone_ratio self + hysteresis_ratio self
  else dead_zone_ratio self.

(** The horizontal offset of the box centre, as a fraction of the frame
    width; the last division raises on a zero width. *)
Definition box_offset (box : Q * Q * Q * Q) (frame_width : Z) : result Q :=
  let '(x1, _, x2, _) := box in
  let face_cx := (x1 + x2) / 2 in
  let frame_cx := inject_Z frame_width / 2 in
  if (frame_width =? 0)%Z then Raise ZeroDivisionError
  else Ok ((face_cx - frame_cx) / inject_Z frame_width).

Definition is_searching (frame_result : FrameResult) : bool :=
  match state frame_result with
  | Some s => bool_decide (s = "searching"%string)
  | None => true
  end.

(** First half of [compute]: the movement, the confidence and the offset
    before the anti-flooding test. *)
Definition classify (self : Detector) (frame_result : FrameResult)
    (frame_width : Z) : result (Movement * Q * Q) :=
  let confidence :=
    match lock_confidence frame_result with Some c => c | None => 0 end in
  match is_searching frame_result, face_box frame_result with
  | false, Some box =>
      match box_offset box frame_width with
      | Raise e => Raise e
      | Ok offset =>
          let threshold := threshold self in
          let movement :=
            if Qle_bool (Qabs offset) threshold then CENTERED
            else if Qlt_bool offset 0 then MOVE_LEFT
            else MOVE_RIGHT in
          Ok (movement, confidence, offset)
      end
  | _, _ => Ok (NO_FACE, 0, 0)
  end.

(** [MovementDetector.compute]; [now] is the reading of [time.time()].  The
    detector returned is [self] after the call. *)
Definition compute (now : Q) (frame_result : FrameResult) (frame_width : Z)
    (self : Detector) : result (option Event * Detector) :=
  match classify self frame_result frame_width with
  | Raise e => Raise e
  | Ok (movement, confidence, offset) =>
      let state_changed := negb (prev_is (_prev_state self) movement) in
      let interval_elapsed :=
        Qle_bool MIN_PUBLISH_INTERVAL (now - _last_publish_time self) in
      if negb state_changed && negb interval_elapsed then Ok (None, self)
      else
        let self :=
          {| dead_zone_ratio := dead_zone_ratio self;
             hysteresis_ratio := hysteresis_ratio self;
             _prev_state := Some movement;
             _last_publish_time := now |} in
        Ok (Some {| status := movement;
                    confidence := py_round confidence 3;
                    offset := py_round offset 4;
                    timestamp := py_int now |}, self)
  end.

End Compute.

(** A detector with a dead zone of 0.1 and a hysteresis band of 0.05, and a
    frame result with a face left of the centre of a 640 pixel frame. *)
Definition sample_detector : Detector := init (1 # 10) (5 # 100).

Definition sample_frame : FrameResult :=
  {| state := Some "locked"%string;
     face_box := Some (200, 10, 248, 90)%Q;
     lock_confidence := Some (87 # 100) |}.

End MovementDetector.

(** ** esp8266: configuration, servo, scanner, message handler *)

Module Esp8266.

(** The constants [main.py] imports from [config.py] and uses in the code
    modelled here.  The file is meant to be edited before upload, so the
    code is modelled over any configuration; [config] is the shipped one. *)
Record Config : Type := {
  SERVO_MIN_ANGLE : Z;
  SERVO_MAX_ANGLE : Z;
  SERVO_CENTER : Z;
  SERVO_STEP_MIN : Z;
  SERVO_STEP_MAX : Z;
  DUTY_MIN : Z;
  DUTY_MAX : Z;
  SCAN_STEP : Z;
  SCAN_DELAY_MS : Z
}.

Definition config : Config := {|
  SERVO_MIN_ANGLE := 0;
  SERVO_MAX_ANGLE := 180;
  SERVO_CENTER := 90;
  SERVO_STEP_MIN := 1;
  SERVO_STEP_MAX := 8;
  DUTY_MIN := 40;
  DUTY_MAX := 115;
  SCAN_STEP := 2;
  SCAN_DELAY_MS := 100
|}.

(** Values produced by [json.loads]. *)
Inductive json : Type :=
  | JNull
  | JBool (b : bool)
  | JNum (x : Q)
  | JStr (s : string)
  | JArr (items : list json)
  | JObj (d : gmap string json).

(** Lines written with [print]. *)
Inductive line : Type :=
  | ServoInitialized (angle : Z)
  | BadMessage
  | ServoLeft (angle : Z) (offset : json)
  | ServoRight (angle : Z) (offset : json)
  | UnknownStatus (status : json).

(** Calls observed from outside the two objects, in program order. *)
Inductive call : Type :=
  | ScannerStart
  | ScannerStop
  | PwmDuty (duty : Z)
  | Print (l : line).

(** Fields of [class Servo] ([self.pwm] is the pin: its writes go to the
    world's list of calls). *)
Record Servo : Type := {
  duty_min : Z;
  duty_max : Z;
  _angle : Z
}.

(** Fields of [class Scanner]. *)
Record Scanner : Type := {
  _direction : Z;
  _last_tick : Z;
  _active : bool
}.

Record World : Type := {
  servo : Servo;
  scanner : Scanner;
  calls : list call
}.

Definition with_servo (s : Servo) (w : World) : World :=
  {| servo := s; scanner := scanner w; calls := calls w |}.

Definition with_scanner (s : Scanner) (w : World) : World :=
  {| servo := servo w; scanner := s; calls := calls w |}.

Definition emit (c : call) (w : World) : World :=
  {| servo := servo w; scanner := scanner w; calls := calls w ++ [c] |}.

(** How a call of the handler ends. *)
Inductive outcome : Type :=
  | Returned
  | Raised (e : exn).

(** [time.ticks_diff] of MicroPython: the signed difference of two tick
    counters that wrap around at [TICKS_PERIOD]. *)
Definition TICKS_PERIOD : Z := 2 ^ 30.

Definition ticks_diff (ticks1 ticks2 : Z) : Z :=
  ((ticks1 - ticks2 + TICKS_PERIOD / 2) mod TICKS_PERIOD - TICKS_PERIOD / 2)%Z.

Section Program.

Variable cfg : Config.

Local Open Scope Z_scope.

(** [max(SERVO_MIN_ANGLE, min(SERVO_MAX_ANGLE, angle))] *)
Definition clamp (angle : Z) : Z :=
  Z.max (SERVO_MIN_ANGLE cfg) (Z.min (SERVO_MAX_ANGLE cfg) angle).

(** [Servo.__init__] *)
Definition Servo_init (duty_min duty_max : Z) : Servo :=
  {| duty_min := duty_min; duty_max := duty_max; _angle := SERVO_CENTER cfg |}.

(** [Servo.angle_to_duty] *)
Definition angle_to_duty (self : Servo) (angle : Z) : Z :=
  let angle := clamp angle in
  let duty :=
    (inject_Z (duty_min self)
     + inject_Z ((duty_max self - duty_min self) * angle) / inject_Z 180)%Q in
  py_int duty.

(** The duty as the specification words it, for comparison with
    [angle_to_duty]: the interpolation divides by the configured span
    [angle_max - angle_min]. *)
Definition spec_duty (self : Servo) (angle : Z) : Z :=
  py_int
    (inject_Z (duty_min self)
     + inject_Z ((duty_max self - duty_min self) * angle)
       / inject_Z (SERVO_MAX_ANGLE cfg - SERVO_MIN_ANGLE cfg))%Q.

(** [Servo.set_angle] *)
Definition set_angle (angle : Z) (w : World) : World :=
  let angle := clamp angle in
  let self :=
    {| duty_min := duty_min (servo w); duty_max := duty_max (servo w);
       _angle := angle |} in
  emit (PwmDuty (angle_to_duty self angle)) (with_servo self w).

(** [Servo.get_angle] *)
Definition get_angle (w : World) : Z := _angle (servo w).

(** The step of [Servo.move_proportional], before it is applied. *)
Definition proportional_step (offset_abs : Q) : Z :=
  let t := py_min (offset_abs / (4 # 10)) 1 in
  let step :=
    (inject_Z (SERVO_STEP_MIN cfg)
     + inject_Z (SERVO_STEP_MAX cfg - SERVO_STEP_MIN cfg) * t)%Q in
  py_int step.

(** [Servo.move_proportional] *)
Definition move_proportional (direction : Z) (offset_abs : Q) (w : World)
  : World :=
  let step := proportional_step offset_abs in
  let new_angle := get_angle w + direction * step in
  set_angle new_angle w.

(** [Servo.center] *)
Definition center (w : World) : World := set_angle (SERVO_CENTER cfg) w.

(** [Servo.stop]: the PWM signal is released, the stored angle is kept. *)
Definition Servo_stop (w : World) : World := emit (PwmDuty 0) w.

(** [Scanner.__init__] *)
Definition Scanner_init : Scanner :=
  {| _direction := 1; _last_tick := 0; _active := false |}.

(** [Scanner.start]; [now] is the reading of [time.ticks_ms()]. *)
Definition start (now : Z) (w : World) : World :=
  let w := emit ScannerStart w in
  if negb (_active (scanner w)) then
    with_scanner
      {| _direction := _direction (scanner w); _last_tick := now;
         _active := true |} w
  else w.

(** [Scanner.stop] *)
Definition stop (w : World) : World :=
  let w := emit ScannerStop w in
  with_scanner
    {| _direction := _direction (scanner w);
       _last_tick := _last_tick (scanner w); _active := false |} w.

(** The direction after the reversal test of [Scanner.tick]. *)
Definition scan_direction (angle direction : Z) : Z :=
  if SERVO_MAX_ANGLE cfg - SCAN_STEP cfg <=? angle then -1
  else if angle <=? SERVO_MIN_ANGLE cfg + SCAN_STEP cfg then 1
  else direction.

(** [Scanner.tick]; [now] is the reading of [time.ticks_ms()]. *)
Definition tick (now : Z) (w : World) : World :=
  if negb (_active (scanner w)) then w
  else if ticks_diff now (_last_tick (scanner w)) <? SCAN_DELAY_MS cfg then w
  else
    let angle := get_angle w in
    let direction := scan_direction angle (_direction (scanner w)) in
    let w :=
      with_scanner
        {| _direction := direction; _last_tick := now;
           _active := _active (scanner w) |} w in
    set_angle (angle + direction * SCAN_STEP cfg) w.

(** [abs(x)] on a decoded value: defined on numbers ([bool] is a Python
    [int]), a [TypeError] ([None] here) on everything else. *)
Definition py_abs (v : json) : option Q :=
  match v with
  | JNum x => Some (Qabs x)
  | JBool b => Some (if b then 1%Q else 0%Q)
  | _ => None
  end.

(** [v == s] for a decoded value [v] and a string literal [s]. *)
Definition is_str (v : json) (s : string) : bool :=
  match v with
  | JStr s' => bool_decide (s' = s)
  | _ => false
  end.

(** [d.get(key, default)] *)
Definition get (d : gmap string json) (key : string) (default : json) : json :=
  match d !! key with
  | Some v => v
  | None => default
  end.

(** [on_message].  [loaded] is what [json.loads(msg)] gives: a decoded
    value, or [None] when it raises [ValueError].  The [try] block holds the
    decoding and the two [get] calls and catches [ValueError] and
    [KeyError] only: [get] on a value that is not a [dict] raises
    [AttributeError], which leaves the handler, as does the [TypeError] of
    [abs].  [now] is the clock reading made by [Scanner.start]. *)
Definition on_message (loaded : option json) (now : Z) (w : World)
  : World * outcome :=
  match loaded with
  | None => (emit (Print BadMessage) w, Returned)
  | Some (JObj payload) =>
      let status := get payload "status" (JStr "") in
      let offset := get payload "offset" (JNum 0) in
      if is_str status "MOVE_LEFT" then
        let w := stop w in
        match py_abs offset with
        | None => (w, Raised TypeError)
        | Some offset_abs =>
            let w := move_proportional (-1) offset_abs w in
            (emit (Print (ServoLeft (get_angle w) offset)) w, Returned)
        end
      else if is_str status "MOVE_RIGHT" then
        let w := stop w in
        match py_abs offset with
        | None => (w, Raised TypeError)
        | Some offset_abs =>
            let w := move_proportional 1 offset_abs w in
            (emit (Print (ServoRight (get_angle w) offset)) w, Returned)
        end
      else if is_str status "CENTERED" then (stop w, Returned)
      else if is_str status "NO_FACE" then (start now w, Returned)
      else (emit (Print (UnknownStatus status)) w, Returned)
  | Some _ => (w, Raised AttributeError)
  end.

(** The module-level statements that build the two objects and centre the
    servo. *)
Definition boot : World :=
  let w :=
    {| servo := Servo_init (DUTY_MIN cfg) (DUTY_MAX cfg);
       scanner := Scanner_init; calls := [] |} in
  let w := center w in
  emit (Print (ServoInitialized (get_angle w))) w.

(** What the inner loop of [run] does, one entry per call: [check_msg]
    delivering a message to [on_message], or [scanner.tick].  An exception
    leaves the inner loop; the outer loop reconnects and goes on with the
    same two objects, so a run of the loop is a sequence of these. *)
Inductive event : Type :=
  | Inbound (loaded : option json) (now : Z)
  | Tick (now : Z).

Definition step (e : event) (w : World) : World :=
  match e with
  | Inbound loaded now => fst (on_message loaded now w)
  | Tick now => tick now w
  end.

Definition run_events (es : list event) (w : World) : World :=
  fold_left (fun w e => step e w) es w.

(** One iteration of the inner loop: [client.check_msg()], which calls the
    handler when a message is waiting, then [scanner.tick(servo)] unless the
    handler raised. *)
Definition iteration (waiting : option (option json)) (t_msg t_tick : Z)
    (w : World) : World * outcome :=
  match waiting with
  | None => (tick t_tick w, Returned)
  | Some loaded =>
      match on_message loaded t_msg w with
      | (w, Returned) => (tick t_tick w, Returned)
      | (w, Raised e) => (w, Raised e)
      end
  end.

(** Direct calls on the two objects and the handler, for statements about
    every sequence of calls. *)
Inductive op : Type :=
  | OpSetAngle (angle : Z)
  | OpMoveProportional (direction : Z) (offset_abs : Q)
  | OpCenter
  | OpTick (now : Z)
  | OpStart (now : Z)
  | OpStop
  | OpMessage (loaded : option json) (now : Z).

Definition apply_op (o : op) (w : World) : World :=
  match o with
  | OpSetAngle angle => set_angle angle w
  | OpMoveProportional direction offset_abs =>
      move_proportional direction offset_abs w
  | OpCenter => center w
  | OpTick now => tick now w
  | OpStart now => start now w
  | OpStop => stop w
  | OpMessage loaded now => fst (on_message loaded now w)
  end.

Definition run_ops (os : list op) (w : World) : World :=
  fold_left (fun w o => apply_op o w) os w.

End Program.

(** The shipped configuration edited for a servo with 90 degrees of
    travel. *)
Definition half_range : Config := {|
  SERVO_MIN_ANGLE := 0;
  SERVO_MAX_ANGLE := 90;
  SERVO_CENTER := 45;
  SERVO_STEP_MIN := 1;
  SERVO_STEP_MAX := 8;
  DUTY_MIN := 40;
  DUTY_MAX := 115;
  SCAN_STEP := 2;
  SCAN_DELAY_MS := 100
|}.

(** The dictionary of a payload with the two keys the handler reads. *)
Definition fields (status : string) (offset : json) : gmap string json :=
  <["status"%string := JStr status]> (<["offset"%string := offset]> ∅).

(** The world after the module-level statements and [scanner.start] at
    tick 0: the scanner is sweeping. *)
Definition scanning : World := start 0 (boot config).

(** The status a delivered message carries, when it has one. *)
Definition status_of (loaded : option json) : option string :=
  match loaded with
  | Some (JObj payload) =>
      match get payload "status" (JStr "") with
      | JStr s => Some s
      | _ => None
      end
  | _ => None
  end.

(** An entry of the loop that does not ask for scanning: a tick, or a
    message whose status is not NO_FACE. *)
Definition no_scan_request (e : event) : Prop :=
  match e with
  | Inbound loaded _ => status_of loaded <> Some "NO_FACE"%string
  | Tick _ => True
  end.

End Esp8266.

(** ** upload_to_esp: what is sent to the board *)

Module Upload.

Import Stdlib.Strings.Ascii Stdlib.Strings.String.

(** A byte string is a [string]: one character per byte. *)

(** [s[n:]] *)
Fixpoint skip (n : nat) (s : string) : string :=
  match n, s with
  | O, _ => s
  | S n', String _ rest => skip n' rest
  | S _, EmptyString => EmptyString
  end.

(** [range(0, stop, step)] for a positive [step]. *)
Definition py_range (stop step : nat) : list nat :=
  map (fun k => k * step) (seq 0 ((stop + step - 1) / step)).

(** [s[i:j]] for [i <= j]. *)
Definition slice (s : string) (i j : nat) : string := String.substring i (j - i) s.

(** The pieces [s[i:i+size]] for [i in range(0, len(s), size)]. *)
Definition pieces (size : nat) (s : string) : list string :=
  map (fun i => slice s i (i + size)) (py_range (String.length s) size).

Definition hex_digit (n : N) : Ascii.ascii :=
  match n with
  | 0 => "0" | 1 => "1" | 2 => "2" | 3 => "3" | 4 => "4" | 5 => "5"
  | 6 => "6" | 7 => "7" | 8 => "8" | 9 => "9" | 10 => "a" | 11 => "b"
  | 12 => "c" | 13 => "d" | 14 => "e" | _ => "f"
  end%N%char.

(** [binascii.hexlify(content).decode()]: two lower-case digits a byte. *)
Fixpoint hexlify (content : string) : string :=
  match content with
  | EmptyString => EmptyString
  | String c rest =>
      String (hex_digit (Ascii.N_of_ascii c / 16))
        (String (hex_digit (Ascii.N_of_ascii c mod 16)) (hexlify rest))
  end.

Definition hex_value (c : Ascii.ascii) : option N :=
  let n := Ascii.N_of_ascii c in
  if ((48 <=? n) && (n <=? 57))%N then Some (n - 48)%N
  else if ((97 <=? n) && (n <=? 102))%N then Some (n - 87)%N
  else if ((65 <=? n) && (n <=? 70))%N then Some (n - 55)%N
  else None.

(** [bytes.fromhex(s)] on the board, for a string without spaces: [None]
    is the [ValueError] of an odd length or of a character that is not a
    hexadecimal digit. *)
Fixpoint fromhex (s : string) : option string :=
  match s with
  | EmptyString => Some EmptyString
  | String _ EmptyString => None
  | String a (String b rest) =>
      match hex_value a, hex_value b, fromhex rest with
      | Some x, Some y, Some bytes =>
          Some (String (Ascii.ascii_of_N (16 * x + y)) bytes)
      | _, _, _ => None
      end
  end.

(** The statements handed to [exec_raw] by [upload_file_raw]. *)
Inductive command : Type :=
  | ImportGcCollect
  | OpenForWriting (remote_path : string)
  | WriteHex (chunk : string)
  | GcCollect
  | CloseFile.

(** The text of a statement. *)
Definition code (c : command) : string :=
  match c with
  | ImportGcCollect => "import gc; gc.collect()"
  | OpenForWriting remote_path =>
      String.append "_f = open('" (String.append remote_path "', 'wb')")
  | WriteHex chunk =>
      String.append "_f.write(bytes.fromhex('" (String.append chunk "'))")
  | GcCollect => "gc.collect()"
  | CloseFile => "_f.close()"
  end%string.

(** The loop of [upload_file_raw] over the chunks, from a given value of
    [gc_counter]: a write per chunk, and a collection after every eighth
    write since the last one. *)
Fixpoint write_chunks (chunks : list string) (gc_counter : nat)
  : list command :=
  match chunks with
  | [] => []
  | chunk :: rest =>
      let gc_counter := gc_counter + 1 in
      WriteHex chunk
      :: (if 8 <=? gc_counter then GcCollect :: write_chunks rest 0
          else write_chunks rest gc_counter)
  end.

(** [upload_file_raw], for the content read from the local file, when the
    serial port raises nothing: the statements executed, in order. *)
Definition upload_file_raw (content remote_path : string) : list command :=
  let hex_data := hexlify content in
  let chunk_size := 256 in
  [ImportGcCollect; OpenForWriting remote_path]
  ++ write_chunks (pieces chunk_size hex_data) 0
  ++ [CloseFile; GcCollect].

(** What [exec_raw] writes to the serial port for a statement already
    encoded: the code in pieces of 128 bytes, then Ctrl+D. *)
Definition exec_raw_writes (encoded : string) : list string :=
  pieces 128 encoded ++ [String (Ascii.ascii_of_N 4) EmptyString].

(** The bytes the board appends to the open file when it runs the
    statements: those of each write, decoded by [bytes.fromhex]; [None]
    when one of them raises. *)
Fixpoint written (cs : list command) : option string :=
  match cs with
  | [] => Some EmptyString
  | WriteHex chunk :: rest =>
      match fromhex chunk, written rest with
      | Some bytes, Some more => Some (String.append bytes more)
      | _, _ => None
      end
  | _ :: rest => written rest
  end.

End Upload.

(** * Properties *)

(** ** Python built-ins *)

Lemma Qlt_bool_iff (a b : Q) : Qlt_bool a b = true <-> (a < b)%Q.
Proof.
  unfold Qlt_bool. rewrite negb_true_iff. split.
  - intros H. apply Qnot_le_lt. intros Hle.
    apply Qle_bool_iff in Hle. congruence.
  - intros H. destruct (Qle_bool b a) eqn:E; [|reflexivity].
    apply Qle_bool_iff in E. exfalso. exact (Qlt_not_le _ _ H E).
Qed.

Lemma Qle_bool_false (a b : Q) : Qle_bool a b = false <-> (b < a)%Q.
Proof.
  rewrite <- Qlt_bool_iff. unfold Qlt_bool.
  destruct (Qle_bool a b); simpl; intuition congruence.
Qed.

Lemma py_int_floor_ceiling (x : Q) :
  py_int x = if (0 <=? Qnum x)%Z then Qfloor x else Qceiling x.
Proof.
  destruct x as [n d]. unfold py_int, Qceiling, Qfloor. simpl.
  destruct (Z.leb_spec 0 n) as [Hn|Hn].
  - apply Z.quot_div_nonneg; lia.
  - rewrite <- (Z.opp_involutive n) at 1.
    rewrite Z.quot_opp_l by lia.
    rewrite Z.quot_div_nonneg by lia. reflexivity.
Qed.

Lemma Qnum_nonneg (x : Q) : (0 <= Qnum x)%Z <-> (0 <= x)%Q.
Proof. destruct x as [n d]. unfold Qle. simpl. lia. Qed.

(** Truncation towards zero is monotone. *)
Lemma py_int_le (x y : Q) : (x <= y)%Q -> (py_int x <= py_int y)%Z.
Proof.
  intros H. rewrite !py_int_floor_ceiling.
  destruct (Z.leb_spec 0 (Qnum x)) as [Hx|Hx];
    destruct (Z.leb_spec 0 (Qnum y)) as [Hy|Hy].
  - apply Qfloor_resp_le. exact H.
  - exfalso. apply Qnum_nonneg in Hx.
    assert (Hy' : (0 <= y)%Q) by (apply Qle_trans with x; assumption).
    apply Qnum_nonneg in Hy'. lia.
  - apply Z.le_trans with 0%Z.
    + change 0%Z with (Qceiling 0). apply Qceiling_resp_le.
      apply Qnot_lt_le. intros H0. apply Qlt_le_weak, Qnum_nonneg in H0. lia.
    + change 0%Z with (Qfloor 0). apply Qfloor_resp_le.
      apply Qnum_nonneg. exact Hy.
  - apply Qceiling_resp_le. exact H.
Qed.

Lemma py_int_comp (x y : Q) : (x == y)%Q -> py_int x = py_int y.
Proof.
  intros H. apply Z.le_antisymm; apply py_int_le; rewrite H; apply Qle_refl.
Qed.

Lemma py_int_inject_Z (z : Z) : py_int (inject_Z z) = z.
Proof. unfold py_int. simpl. apply Z.quot_1_r. Qed.

Lemma py_min_le (a a' b : Q) : (a <= a')%Q -> (py_min a b <= py_min a' b)%Q.
Proof.
  intros H. unfold py_min.
  destruct (Qle_bool a b) eqn:E1; destruct (Qle_bool a' b) eqn:E2.
  - exact H.
  - apply Qle_bool_iff. exact E1.
  - apply Qle_bool_false in E1. apply Qle_bool_iff in E2.
    exfalso. apply (Qlt_irrefl b).
    apply Qlt_le_trans with a; [exact E1|]. apply Qle_trans with a'; assumption.
  - apply Qle_refl.
Qed.

Lemma py_min_saturates (a b : Q) : (b <= a)%Q -> (py_min a b == b)%Q.
Proof.
  intros H. unfold py_min. destruct (Qle_bool a b) eqn:E; [|reflexivity].
  apply Qle_bool_iff in E. apply Qle_antisym; assumption.
Qed.

(** ** The movement detector *)

Section DetectorFacts.

Import MovementDetector.

Lemma Movement_eqb_eq (a b : Movement) : Movement_eqb a b = true <-> a = b.
Proof. destruct a, b; simpl; split; congruence. Qed.

Lemma prev_is_true (prev : option Movement) (m : Movement) :
  prev_is prev m = true <-> prev = Some m.
Proof.
  destruct prev as [p|]; simpl.
  - rewrite Movement_eqb_eq. split; congruence.
  - split; congruence.
Qed.

Lemma prev_is_false (prev : option Movement) (m : Movement) :
  prev_is prev m = false <-> prev <> Some m.
Proof.
  rewrite <- prev_is_true. destruct (prev_is prev m); intuition congruence.
Qed.

Lemma box_offset_ok (box : Q * Q * Q * Q) (frame_width : Z) :
  frame_width <> 0%Z ->
  exists offset, box_offset box frame_width = Ok offset.
Proof.
  intros H. destruct box as [[[x1 y1] x2] y2]. unfold box_offset.
  destruct (Z.eqb_spec frame_width 0); [contradiction|]. eauto.
Qed.

Lemma classify_total (self : Detector) (fr : FrameResult) (frame_width : Z) :
  frame_width <> 0%Z ->
  exists movement confidence offset,
    classify self fr frame_width = Ok (movement, confidence, offset).
Proof.
  intros H. unfold classify.
  destruct (is_searching fr); [eauto|].
  destruct (face_box fr) as [box|]; [|eauto].
  destruct (box_offset_ok box frame_width H) as [o ->]. eauto.
Qed.

(** C1.  The anti-flooding gate of [compute], for an observation with a
    positive frame width: the classification succeeds with some movement;
    when that movement equals the last emitted status and less than
    [MIN_PUBLISH_INTERVAL] has passed since the last emission, [compute]
    returns [None] and leaves the detector as it was; in every other case
    it returns an event carrying that movement, and the detector then
    holds that movement as last emitted status and [now] as last emission
    time. *)
Theorem compute_updates_state_only_on_emission
    (MIN_PUBLISH_INTERVAL now : Q) (fr : FrameResult) (frame_width : Z)
    (self : Detector) :
  (0 < frame_width)%Z ->
  exists movement confidence offset,
    classify self fr frame_width = Ok (movement, confidence, offset) /\
    (_prev_state self = Some movement /\
     (now - _last_publish_time self < MIN_PUBLISH_INTERVAL)%Q ->
     compute MIN_PUBLISH_INTERVAL now fr frame_width self = Ok (None, self)) /\
    (~ (_prev_state self = Some movement /\
        (now - _last_publish_time self < MIN_PUBLISH_INTERVAL)%Q) ->
     exists ev self',
       compute MIN_PUBLISH_INTERVAL now fr frame_width self
       = Ok (Some ev, self') /\
       status ev = movement /\
       _prev_state self' = Some movement /\
       _last_publish_time self' = now /\
       dead_zone_ratio self' = dead_zone_ratio self /\
       hysteresis_ratio self' = hysteresis_ratio self).
Proof.
  intros Hw.
  destruct (classify_total self fr frame_width) as (m & c & o & Hc); [lia|].
  exists m, c, o. split; [exact Hc|]. unfold compute. rewrite Hc. split.
  - intros [Hprev Hlt].
    apply prev_is_true in Hprev. apply Qle_bool_false in Hlt.
    rewrite Hprev, Hlt. reflexivity.
  - intros Hnot.
    destruct (prev_is (_prev_state self) m) eqn:Ep; simpl.
    + destruct (Qle_bool MIN_PUBLISH_INTERVAL (now - _last_publish_time self))
        eqn:Eq; simpl.
      * eexists _, _. repeat split.
      * exfalso. apply Hnot. split.
        -- apply prev_is_true. exact Ep.
        -- apply Qle_bool_false. exact Eq.
    + eexists _, _. repeat split.
Qed.

Lemma compute_updates_state_only_on_emission_witness :
  exists movement confidence offset,
    classify sample_detector sample_frame 640
    = Ok (movement, confidence, offset) /\
    (_prev_state sample_detector = Some movement /\
     (1000 - _last_publish_time sample_detector < 1 # 2)%Q ->
     compute (1 # 2) 1000 sample_frame 640 sample_detector
     = Ok (None, sample_detector)) /\
    (~ (_prev_state sample_detector = Some movement /\
        (1000 - _last_publish_time sample_detector < 1 # 2)%Q) ->
     exists ev self',
       compute (1 # 2) 1000 sample_frame 640 sample_detector
       = Ok (Some ev, self') /\
       status ev = movement /\
       _prev_state self' = Some movement /\
       _last_publish_time self' = 1000%Q /\
       dead_zone_ratio self' = dead_zone_ratio sample_detector /\
       hysteresis_ratio self' = hysteresis_ratio sample_detector).
Proof.
  apply (compute_updates_state_only_on_emission
           (1 # 2) 1000 sample_frame 640 sample_detector).
  lia.
Defined.

(** Two computations of the same movement within the interval emit once; a
    third one after the interval emits again. *)
Example flood_suppression_scenario :
  exists e1 d1 e3 d3,
    compute (1 # 2) 1000 sample_frame 640 sample_detector = Ok (Some e1, d1) /\
    compute (1 # 2) (10001 # 10) sample_frame 640 d1 = Ok (None, d1) /\
    compute (1 # 2) (10006 # 10) sample_frame 640 d1 = Ok (Some e3, d3) /\
    status e1 = MOVE_LEFT /\ status e3 = MOVE_LEFT.
Proof. vm_compute. eexists _, _, _, _. repeat split. Qed.

(** C2.  For a tracked observation with a bounding box (and a frame width
    other than zero) and non-negative dead-zone and hysteresis ratios: the
    threshold is dead zone plus hysteresis when the last emitted status is
    CENTERED and the dead zone alone otherwise; the classification succeeds
    on the offset of the box centre, and the movement is CENTERED iff
    |offset| <= threshold, MOVE_LEFT iff offset < -threshold, MOVE_RIGHT
    iff offset > threshold. *)
Theorem classify_tracked_uses_last_emitted_threshold
    (self : Detector) (fr : FrameResult) (frame_width : Z)
    (s : string) (box : Q * Q * Q * Q) :
  state fr = Some s -> s <> "searching"%string ->
  face_box fr = Some box ->
  frame_width <> 0%Z ->
  (0 <= dead_zone_ratio self)%Q -> (0 <= hysteresis_ratio self)%Q ->
  (_prev_state self = Some CENTERED ->
   threshold self = (dead_zone_ratio self + hysteresis_ratio self)%Q) /\
  (_prev_state self <> Some CENTERED ->
   threshold self = dead_zone_ratio self) /\
  exists movement confidence offset,
    classify self fr frame_width = Ok (movement, confidence, offset) /\
    box_offset box frame_width = Ok offset /\
    (movement = CENTERED <-> (Qabs offset <= threshold self)%Q) /\
    (movement = MOVE_LEFT <-> (offset < - threshold self)%Q) /\
    (movement = MOVE_RIGHT <-> (threshold self < offset)%Q).
Proof.
  intros Hs Hns Hbox Hw Hdz Hhy.
  assert (Hthr : (0 <= threshold self)%Q).
  { unfold threshold. destruct (prev_is _ _); [|exact Hdz].
    replace 0%Q with (0 + 0)%Q by reflexivity. apply Qplus_le_compat; assumption. }
  split; [|split].
  - intros Hp. unfold threshold. apply prev_is_true in Hp. rewrite Hp. reflexivity.
  - intros Hp. unfold threshold. apply prev_is_false in Hp. rewrite Hp. reflexivity.
  - destruct (box_offset_ok box frame_width Hw) as [o Ho].
    unfold classify, is_searching. rewrite Hs, Hbox, Ho.
    rewrite bool_decide_eq_false_2 by exact Hns.
    set (thr := threshold self) in *.
    destruct (Qle_bool (Qabs o) thr) eqn:Ec.
    + apply Qle_bool_iff in Ec. pose proof (proj1 (Qabs_Qle_condition o thr) Ec) as [Hlo Hhi].
      eexists _, _, _. split; [reflexivity|]. split; [reflexivity|].
      repeat split; try congruence; intros H; exfalso.
      * exact (Qlt_not_le _ _ H Hlo).
      * exact (Qlt_not_le _ _ H Hhi).
    + apply Qle_bool_false in Ec.
      destruct (Qlt_bool o 0) eqn:El.
      * apply Qlt_bool_iff in El.
        assert (Habs : (Qabs o == - o)%Q) by (apply Qabs_neg; apply Qlt_le_weak; exact El).
        rewrite Habs in Ec.
        assert (Hneg : (o < - thr)%Q).
        { apply Qopp_lt_compat in Ec. rewrite Qopp_involutive in Ec. exact Ec. }
        eexists _, _, _. split; [reflexivity|]. split; [reflexivity|].
        repeat split; try congruence; intros H; exfalso.
        -- apply (Qlt_not_le _ _ Ec). rewrite <- Habs. exact H.
        -- apply (Qlt_irrefl o). apply Qlt_trans with 0%Q; [exact El|].
           apply Qle_lt_trans with thr; assumption.
      * assert (Hge : (0 <= o)%Q).
        { apply Qnot_lt_le. intros H. apply Qlt_bool_iff in H. congruence. }
        rewrite (Qabs_pos o Hge) in Ec.
        eexists _, _, _. split; [reflexivity|]. split; [reflexivity|].
        repeat split; try congruence; intros H; exfalso.
        -- apply (Qlt_not_le _ _ Ec). rewrite <- (Qabs_pos o Hge). exact H.
        -- apply (Qlt_irrefl o). apply Qlt_le_trans with (- thr)%Q; [exact H|].
           apply Qle_trans with 0%Q; [|exact Hge].
           apply (Qopp_le_compat 0 thr). exact Hthr.
Qed.

Lemma classify_tracked_uses_last_emitted_threshold_witness :
  (_prev_state sample_detector = Some CENTERED ->
   threshold sample_detector
   = (dead_zone_ratio sample_detector + hysteresis_ratio sample_detector)%Q) /\
  (_prev_state sample_detector <> Some CENTERED ->
   threshold sample_detector = dead_zone_ratio sample_detector) /\
  exists movement confidence offset,
    classify sample_detector sample_frame 640
    = Ok (movement, confidence, offset) /\
    box_offset (200, 10, 248, 90)%Q 640 = Ok offset /\
    (movement = CENTERED <-> (Qabs offset <= threshold sample_detector)%Q) /\
    (movement = MOVE_LEFT <-> (offset < - threshold sample_detector)%Q) /\
    (movement = MOVE_RIGHT <-> (threshold sample_detector < offset)%Q).
Proof.
  apply (classify_tracked_uses_last_emitted_threshold
           sample_detector sample_frame 640 "locked"%string
           (200, 10, 248, 90)%Q).
  - reflexivity.
  - discriminate.
  - reflexivity.
  - lia.
  - discriminate.
  - discriminate.
Defined.

(** The hysteresis boundary on a 1000 pixel frame with dead zone 0.1 and
    hysteresis 0.05: an offset of 0.149 is CENTERED after a CENTERED emission
    and MOVE_RIGHT otherwise; an offset of 0.151 is MOVE_RIGHT in both. *)
Example hysteresis_boundary_scenario :
  let centred :=
    {| dead_zone_ratio := 1 # 10; hysteresis_ratio := 5 # 100;
       _prev_state := Some CENTERED; _last_publish_time := 0 |} in
  let movement_at self x :=
    match classify self
            {| state := Some "locked"%string; face_box := Some (x, 0, x, 10)%Q;
               lock_confidence := Some 1%Q |} 1000 with
    | Ok (movement, _, offset) =>
        Some (movement, Qeq_bool offset (x / 1000 - (1 # 2))%Q)
    | Raise _ => None
    end in
  movement_at centred 649%Q = Some (CENTERED, true) /\
  movement_at sample_detector 649%Q = Some (MOVE_RIGHT, true) /\
  movement_at centred 651%Q = Some (MOVE_RIGHT, true) /\
  movement_at centred 349%Q = Some (MOVE_LEFT, true).
Proof. vm_compute. repeat split. Qed.

(** C9.  For an observation whose state is "searching" (given or by
    default) or that has no bounding box, whatever its reported confidence:
    the classification is NO_FACE with confidence 0 and offset 0, [compute]
    does not raise, and an event it returns has status NO_FACE, confidence
    0 and offset 0. *)
Theorem compute_no_face_forces_zero_confidence_and_offset
    (MIN_PUBLISH_INTERVAL now : Q) (fr : FrameResult) (frame_width : Z)
    (self : Detector) :
  state fr = Some "searching"%string \/ state fr = None \/ face_box fr = None ->
  classify self fr frame_width = Ok (NO_FACE, 0%Q, 0%Q) /\
  exists emitted self',
    compute MIN_PUBLISH_INTERVAL now fr frame_width self = Ok (emitted, self') /\
    forall ev, emitted = Some ev ->
      status ev = NO_FACE /\ (confidence ev == 0)%Q /\ (offset ev == 0)%Q.
Proof.
  intros H.
  assert (Hc : classify self fr frame_width = Ok (NO_FACE, 0%Q, 0%Q)).
  { unfold classify, is_searching.
    destruct H as [-> | [-> | ->]]; try reflexivity.
    destruct (match state fr with Some s => _ | None => _ end); reflexivity. }
  split; [exact Hc|]. unfold compute. rewrite Hc.
  destruct (negb (negb (prev_is (_prev_state self) NO_FACE)) && _).
  - eexists _, _. split; [reflexivity|]. intros ev Hev. discriminate.
  - eexists _, _. split; [reflexivity|]. intros ev Hev.
    injection Hev as <-. simpl. repeat split.
Qed.

Lemma compute_no_face_forces_zero_confidence_and_offset_witness :
  let fr :=
    {| state := Some "searching"%string;
       face_box := Some (200, 10, 248, 90)%Q;
       lock_confidence := Some (87 # 100) |} in
  classify sample_detector fr 640 = Ok (NO_FACE, 0%Q, 0%Q) /\
  exists emitted self',
    compute (1 # 2) 1000 fr 640 sample_detector = Ok (emitted, self') /\
    forall ev, emitted = Some ev ->
      status ev = NO_FACE /\ (confidence ev == 0)%Q /\ (offset ev == 0)%Q.
Proof.
  intros fr.
  apply (compute_no_face_forces_zero_confidence_and_offset
           (1 # 2) 1000 fr 640 sample_detector).
  left. reflexivity.
Defined.

End DetectorFacts.

(** ** The servo *)

Section ServoFacts.

Import Esp8266.

Variable cfg : Config.

Local Open Scope Z_scope.

Lemma clamp_bounds (angle : Z) :
  SERVO_MIN_ANGLE cfg <= SERVO_MAX_ANGLE cfg ->
  SERVO_MIN_ANGLE cfg <= clamp cfg angle <= SERVO_MAX_ANGLE cfg.
Proof. unfold clamp. lia. Qed.

Lemma clamp_idempotent (angle : Z) :
  clamp cfg (clamp cfg angle) = clamp cfg angle.
Proof. unfold clamp. lia. Qed.

Lemma get_angle_set_angle (angle : Z) (w : World) :
  get_angle (set_angle cfg angle w) = clamp cfg angle.
Proof. reflexivity. Qed.

Lemma scanner_set_angle (angle : Z) (w : World) :
  scanner (set_angle cfg angle w) = scanner w.
Proof. reflexivity. Qed.

Lemma proportional_step_zero : proportional_step cfg 0 = SERVO_STEP_MIN cfg.
Proof.
  unfold proportional_step.
  transitivity (py_int (inject_Z (SERVO_STEP_MIN cfg)));
    [|apply py_int_inject_Z].
  apply py_int_comp.
  assert (Ht : (py_min (0 / (4 # 10)) 1 == 0)%Q) by reflexivity.
  rewrite Ht. ring.
Qed.

End ServoFacts.

(** C6.  With [SERVO_STEP_MIN <= SERVO_STEP_MAX], the step that
    [move_proportional] computes is non-decreasing in [offset_abs] (on every
    pair of offsets, so on [0, 0.5] too), and it is [SERVO_STEP_MAX] for
    every [offset_abs >= 0.4]. *)
Theorem proportional_step_monotone_and_saturating (cfg : Esp8266.Config) :
  (Esp8266.SERVO_STEP_MIN cfg <= Esp8266.SERVO_STEP_MAX cfg)%Z ->
  (forall a b : Q,
     (a <= b)%Q ->
     (Esp8266.proportional_step cfg a <= Esp8266.proportional_step cfg b)%Z) /\
  (forall a : Q,
     (4 # 10 <= a)%Q ->
     Esp8266.proportional_step cfg a = Esp8266.SERVO_STEP_MAX cfg).
Proof.
  intros Hcfg. unfold Esp8266.proportional_step. split.
  - intros a b Hab. apply py_int_le.
    apply Qplus_le_compat; [apply Qle_refl|].
    rewrite !(Qmult_comm (inject_Z _)).
    apply Qmult_le_compat_r.
    + apply py_min_le. unfold Qdiv. apply Qmult_le_compat_r; [exact Hab|].
      discriminate.
    + change 0%Q with (inject_Z 0). rewrite <- Zle_Qle. lia.
  - intros a Ha.
    transitivity (py_int (inject_Z (Esp8266.SERVO_STEP_MAX cfg)));
      [|apply py_int_inject_Z].
    apply py_int_comp.
    rewrite py_min_saturates.
    + rewrite Qmult_1_r, <- inject_Z_plus.
      replace (Esp8266.SERVO_STEP_MIN cfg
               + (Esp8266.SERVO_STEP_MAX cfg - Esp8266.SERVO_STEP_MIN cfg))%Z
        with (Esp8266.SERVO_STEP_MAX cfg) by lia.
      reflexivity.
    + apply Qle_shift_div_l; [reflexivity|]. rewrite Qmult_1_l. exact Ha.
Qed.

Lemma proportional_step_monotone_and_saturating_witness :
  (Esp8266.proportional_step Esp8266.config (1 # 10)
   <= Esp8266.proportional_step Esp8266.config (1 # 2))%Z /\
  Esp8266.proportional_step Esp8266.config (1 # 2)
  = Esp8266.SERVO_STEP_MAX Esp8266.config.
Proof.
  destruct (proportional_step_monotone_and_saturating Esp8266.config)
    as [Hmono Hsat]; [discriminate|].
  split; [apply Hmono; discriminate|apply Hsat; discriminate].
Defined.

(** The steps of the shipped configuration at a few offsets. *)
Example proportional_step_values :
  map (Esp8266.proportional_step Esp8266.config)
      [0; 5 # 100; 1 # 10; 25 # 100; 39 # 100; 4 # 10; 5 # 10]%Q
  = [1; 1; 2; 5; 7; 8; 8]%Z.
Proof. reflexivity. Qed.

(** C8, as stated, fails: with the limits edited to 0 and 90, [set_angle]
    of 90 stores 90 and writes the duty 77, where the interpolation over
    the configured span gives 115. *)
Lemma set_angle_duty_ignores_configured_span :
  let w := Esp8266.boot Esp8266.half_range in
  let w' := Esp8266.set_angle Esp8266.half_range 90 w in
  Esp8266.get_angle w' = 90%Z /\
  Esp8266.calls w' = Esp8266.calls w ++ [Esp8266.PwmDuty 77] /\
  Esp8266.spec_duty Esp8266.half_range (Esp8266.servo w) 90 = 115%Z /\
  Esp8266.angle_to_duty Esp8266.half_range (Esp8266.servo w) 90
  <> Esp8266.spec_duty Esp8266.half_range (Esp8266.servo w) 90.
Proof. vm_compute. repeat split. discriminate. Qed.

(** C8, amended.  [set_angle] clamps the angle to the configured limits,
    stores the clamped value and writes the duty
    [duty_min + (duty_max - duty_min) * angle / 180] of the clamped angle,
    truncated: the divisor is the constant 180, whatever the configured
    limits.  Under the shipped limits 0 and 180 this is the interpolation
    over the configured span. *)
Theorem set_angle_clamps_stores_and_scales_by_180
    (cfg : Esp8266.Config) (angle : Z) (w : Esp8266.World) :
  let clamped :=
    Z.max (Esp8266.SERVO_MIN_ANGLE cfg)
          (Z.min (Esp8266.SERVO_MAX_ANGLE cfg) angle) in
  let self := Esp8266.servo w in
  let duty :=
    py_int
      (inject_Z (Esp8266.duty_min self)
       + inject_Z ((Esp8266.duty_max self - Esp8266.duty_min self) * clamped)
         / inject_Z 180)%Q in
  Esp8266.set_angle cfg angle w
  = {| Esp8266.servo :=
         {| Esp8266.duty_min := Esp8266.duty_min self;
            Esp8266.duty_max := Esp8266.duty_max self;
            Esp8266._angle := clamped |};
       Esp8266.scanner := Esp8266.scanner w;
       Esp8266.calls := Esp8266.calls w ++ [Esp8266.PwmDuty duty] |} /\
  forall (s : Esp8266.Servo) (a : Z),
    Esp8266.angle_to_duty Esp8266.config s (Esp8266.clamp Esp8266.config a)
    = Esp8266.spec_duty Esp8266.config s (Esp8266.clamp Esp8266.config a).
Proof.
  split.
  - unfold Esp8266.set_angle, Esp8266.emit, Esp8266.with_servo,
      Esp8266.angle_to_duty. simpl.
    rewrite clamp_idempotent. reflexivity.
  - intros s a. unfold Esp8266.angle_to_duty.
    rewrite clamp_idempotent. reflexivity.
Qed.

(** ** The scanner, the handler and the loop *)

Section HandlerFacts.

Import Esp8266.

Variable cfg : Config.

Local Open Scope Z_scope.

Ltac handler_cases :=
  unfold on_message;
  repeat match goal with
    | |- context [if is_str ?v ?s then _ else _] =>
        destruct (is_str v s) eqn:?
    | |- context [match py_abs ?v with Some _ => _ | None => _ end] =>
        destruct (py_abs v) eqn:?
    end.

Lemma is_str_true (v : json) (s : string) :
  is_str v s = true <-> v = JStr s.
Proof.
  destruct v; simpl; try (split; congruence).
  rewrite bool_decide_eq_true. split; congruence.
Qed.

Lemma tick_inactive (now : Z) (w : World) :
  _active (scanner w) = false -> tick cfg now w = w.
Proof. intros H. unfold tick. rewrite H. reflexivity. Qed.

Lemma tick_in_bounds (now : Z) (w : World) :
  SERVO_MIN_ANGLE cfg <= SERVO_MAX_ANGLE cfg ->
  SERVO_MIN_ANGLE cfg <= get_angle w <= SERVO_MAX_ANGLE cfg ->
  SERVO_MIN_ANGLE cfg <= get_angle (tick cfg now w) <= SERVO_MAX_ANGLE cfg.
Proof.
  intros Hcfg Hw. unfold tick.
  destruct (negb (_active (scanner w))); [exact Hw|].
  destruct (_ <? _); [exact Hw|].
  rewrite get_angle_set_angle. apply clamp_bounds. exact Hcfg.
Qed.

Lemma on_message_in_bounds (loaded : option json) (now : Z) (w : World) :
  SERVO_MIN_ANGLE cfg <= SERVO_MAX_ANGLE cfg ->
  SERVO_MIN_ANGLE cfg <= get_angle w <= SERVO_MAX_ANGLE cfg ->
  SERVO_MIN_ANGLE cfg <= get_angle (fst (on_message cfg loaded now w))
  <= SERVO_MAX_ANGLE cfg.
Proof.
  intros Hcfg Hw.
  destruct loaded as [[| | | | |d]|]; try exact Hw.
  handler_cases; simpl; try exact Hw;
    try (apply clamp_bounds; exact Hcfg).
  unfold start. simpl. destruct (negb _); exact Hw.
Qed.

Lemma apply_op_in_bounds (o : op) (w : World) :
  SERVO_MIN_ANGLE cfg <= SERVO_MAX_ANGLE cfg ->
  SERVO_MIN_ANGLE cfg <= get_angle w <= SERVO_MAX_ANGLE cfg ->
  SERVO_MIN_ANGLE cfg <= get_angle (apply_op cfg o w) <= SERVO_MAX_ANGLE cfg.
Proof.
  intros Hcfg Hw. destruct o; simpl.
  - apply clamp_bounds. exact Hcfg.
  - apply clamp_bounds. exact Hcfg.
  - apply clamp_bounds. exact Hcfg.
  - apply tick_in_bounds; assumption.
  - unfold start. simpl. destruct (negb _); exact Hw.
  - exact Hw.
  - apply on_message_in_bounds; assumption.
Qed.

Lemma run_ops_in_bounds (os : list op) (w : World) :
  SERVO_MIN_ANGLE cfg <= SERVO_MAX_ANGLE cfg ->
  SERVO_MIN_ANGLE cfg <= get_angle w <= SERVO_MAX_ANGLE cfg ->
  SERVO_MIN_ANGLE cfg <= get_angle (run_ops cfg os w) <= SERVO_MAX_ANGLE cfg.
Proof.
  intros Hcfg. revert w. induction os as [|o os IH]; intros w Hw.
  - exact Hw.
  - simpl. apply IH. apply apply_op_in_bounds; assumption.
Qed.

Lemma on_message_stays_inactive (loaded : option json) (now : Z) (w : World) :
  status_of loaded <> Some "NO_FACE"%string ->
  _active (scanner w) = false ->
  _active (scanner (fst (on_message cfg loaded now w))) = false.
Proof.
  intros Hs Hw.
  destruct loaded as [[| | | | |d]|]; try exact Hw.
  handler_cases; simpl; try exact Hw; try reflexivity.
  exfalso. apply Hs. simpl.
  match goal with H : is_str _ "NO_FACE" = true |- _ =>
    apply is_str_true in H; rewrite H end.
  reflexivity.
Qed.

Lemma run_events_stays_inactive (es : list event) (w : World) :
  Forall no_scan_request es ->
  _active (scanner w) = false ->
  _active (scanner (run_events cfg es w)) = false.
Proof.
  intros Hes. revert w. induction Hes as [|e es He _ IH]; intros w Hw.
  - exact Hw.
  - simpl. apply IH. destruct e as [loaded now|now]; simpl.
    + apply on_message_stays_inactive; assumption.
    + rewrite tick_inactive; assumption.
Qed.

(** An iteration of the inner loop is a run of at most two entries. *)
Lemma iteration_run_events (waiting : option (option json))
    (t_msg t_tick : Z) (w : World) :
  exists es,
    fst (iteration cfg waiting t_msg t_tick w) = run_events cfg es w /\
    (forall loaded, waiting = Some loaded ->
     exists rest, es = Inbound loaded t_msg :: rest).
Proof.
  destruct waiting as [loaded|]; simpl.
  - destruct (on_message cfg loaded t_msg w) as [w1 [|e]] eqn:E.
    + exists [Inbound loaded t_msg; Tick t_tick]. simpl. rewrite E.
      split; [reflexivity|]. intros l [= <-]. eauto.
    + exists [Inbound loaded t_msg]. simpl. rewrite E.
      split; [reflexivity|]. intros l [= <-]. eauto.
  - exists [Tick t_tick]. split; [reflexivity|]. discriminate.
Qed.

End HandlerFacts.

Section HandlerClaims.

Import Esp8266.

Local Open Scope Z_scope.

(** C3.  With [SERVO_MIN_ANGLE <= SERVO_MAX_ANGLE], the stored angle is
    within the two limits after every finite sequence of [set_angle],
    [move_proportional], [center] and scanner [tick] calls (and of scanner
    [start], [stop] and handled messages), from the world the module-level
    statements build, whatever angle, direction, offset and clock
    arguments the calls take. *)
Theorem angle_stays_within_limits (cfg : Config) (os : list op) :
  SERVO_MIN_ANGLE cfg <= SERVO_MAX_ANGLE cfg ->
  SERVO_MIN_ANGLE cfg <= get_angle (run_ops cfg os (boot cfg))
  <= SERVO_MAX_ANGLE cfg.
Proof.
  intros Hcfg. apply run_ops_in_bounds; [exact Hcfg|].
  unfold boot, center, emit. simpl. apply clamp_bounds. exact Hcfg.
Qed.

Lemma angle_stays_within_limits_witness :
  let os :=
    [OpSetAngle 500; OpMoveProportional 1 (1 # 2); OpStart 0; OpTick 100;
     OpSetAngle (-7); OpMoveProportional (-1) (3 # 10); OpTick 250;
     OpCenter; OpMoveProportional 40 (-9)] in
  SERVO_MIN_ANGLE config <= get_angle (run_ops config os (boot config))
  <= SERVO_MAX_ANGLE config.
Proof.
  intros os. apply (angle_stays_within_limits config os). discriminate.
Defined.

(** C7.  With [SERVO_MIN_ANGLE <= SERVO_MAX_ANGLE] and the two reversal
    bands apart ([SERVO_MIN_ANGLE + SCAN_STEP < SERVO_MAX_ANGLE - SCAN_STEP]),
    a tick of an active scanner whose delay has elapsed leaves the
    direction at -1 when the angle read is at least
    [SERVO_MAX_ANGLE - SCAN_STEP], at +1 when it is at most
    [SERVO_MIN_ANGLE + SCAN_STEP], and unchanged in between; the servo is
    then moved by [SCAN_STEP] in that new direction, and the angle stored
    is within the limits. *)
Theorem tick_reverses_before_moving (cfg : Config) (now : Z) (w : World) :
  SERVO_MIN_ANGLE cfg <= SERVO_MAX_ANGLE cfg ->
  SERVO_MIN_ANGLE cfg + SCAN_STEP cfg < SERVO_MAX_ANGLE cfg - SCAN_STEP cfg ->
  _active (scanner w) = true ->
  SCAN_DELAY_MS cfg <= ticks_diff now (_last_tick (scanner w)) ->
  let angle := get_angle w in
  let w' := tick cfg now w in
  let direction := _direction (scanner w') in
  (SERVO_MAX_ANGLE cfg - SCAN_STEP cfg <= angle -> direction = -1) /\
  (angle <= SERVO_MIN_ANGLE cfg + SCAN_STEP cfg -> direction = 1) /\
  (SERVO_MIN_ANGLE cfg + SCAN_STEP cfg < angle
   < SERVO_MAX_ANGLE cfg - SCAN_STEP cfg ->
   direction = _direction (scanner w)) /\
  get_angle w' = clamp cfg (angle + direction * SCAN_STEP cfg) /\
  SERVO_MIN_ANGLE cfg <= get_angle w' <= SERVO_MAX_ANGLE cfg /\
  _last_tick (scanner w') = now /\
  _active (scanner w') = true.
Proof.
  intros Hcfg Hbands Hact Hdue. unfold tick. rewrite Hact. simpl negb. cbv iota.
  destruct (Z.ltb_spec (ticks_diff now (_last_tick (scanner w)))
              (SCAN_DELAY_MS cfg)) as [Hlt|_]; [lia|].
  simpl. unfold scan_direction.
  destruct (Z.leb_spec (SERVO_MAX_ANGLE cfg - SCAN_STEP cfg) (get_angle w));
    [|destruct (Z.leb_spec (get_angle w) (SERVO_MIN_ANGLE cfg + SCAN_STEP cfg))];
    (repeat split; try lia; try exact Hact;
     try (apply clamp_bounds; exact Hcfg)).
Qed.

Lemma tick_reverses_before_moving_witness :
  let angle := get_angle scanning in
  let w' := tick config 100 scanning in
  let direction := _direction (scanner w') in
  (SERVO_MAX_ANGLE config - SCAN_STEP config <= angle -> direction = -1) /\
  (angle <= SERVO_MIN_ANGLE config + SCAN_STEP config -> direction = 1) /\
  (SERVO_MIN_ANGLE config + SCAN_STEP config < angle
   < SERVO_MAX_ANGLE config - SCAN_STEP config ->
   direction = _direction (scanner scanning)) /\
  get_angle w' = clamp config (angle + direction * SCAN_STEP config) /\
  SERVO_MIN_ANGLE config <= get_angle w' <= SERVO_MAX_ANGLE config /\
  _last_tick (scanner w') = 100 /\
  _active (scanner w') = true.
Proof.
  apply (tick_reverses_before_moving config 100 scanning).
  - discriminate.
  - reflexivity.
  - reflexivity.
  - discriminate.
Defined.

(** A sweep of the shipped configuration from 176 degrees: the direction
    turns at 178, before the step that would pass 180. *)
Example sweep_turns_at_the_upper_band :
  let w0 := set_angle config 176 scanning in
  let w1 := tick config 100 w0 in
  let w2 := tick config 200 w1 in
  let w3 := tick config 300 w2 in
  map (fun w => (get_angle w, _direction (scanner w))) [w0; w1; w2; w3]
  = [(176, 1); (178, 1); (176, -1); (174, -1)].
Proof. reflexivity. Qed.

(** C4.  Handling a message whose status is MOVE_LEFT, MOVE_RIGHT or
    CENTERED: the first call the handler makes is [Scanner.stop], so every
    duty written for that message comes after it, and the handler does not
    start the scanner again; the scanner is inactive when the handler is
    left (also when it is left by an exception); and after any further run
    of the loop in which no message has status NO_FACE, the scanner is
    still inactive and a tick changes nothing. *)
Theorem commanded_motion_stops_scanning_first
    (cfg : Config) (d : gmap string json) (status : string) (now : Z)
    (w : World) :
  d !! "status"%string = Some (JStr status) ->
  status = "MOVE_LEFT"%string \/ status = "MOVE_RIGHT"%string
  \/ status = "CENTERED"%string ->
  let w1 := fst (on_message cfg (Some (JObj d)) now w) in
  (exists rest,
     calls w1 = calls w ++ ScannerStop :: rest /\ ~ In ScannerStart rest) /\
  _active (scanner w1) = false /\
  forall (es : list event) (now' : Z),
    Forall no_scan_request es ->
    _active (scanner (run_events cfg es w1)) = false /\
    tick cfg now' (run_events cfg es w1) = run_events cfg es w1.
Proof.
  intros Hd Hs w1.
  assert (H1 : (exists rest,
                  calls w1 = calls w ++ ScannerStop :: rest /\
                  ~ In ScannerStart rest) /\
               _active (scanner w1) = false).
  { subst w1. unfold on_message, get. rewrite Hd.
    destruct Hs as [-> | [-> | ->]]; simpl;
      try destruct (py_abs _); simpl; (split; [|reflexivity]).
    all: try rewrite <- !app_assoc; simpl; eexists; (split; [reflexivity|]).
    all: simpl; intuition discriminate. }
  destruct H1 as [Hcalls Hoff]. split; [exact Hcalls|]. split; [exact Hoff|].
  intros es now' Hes.
  pose proof (run_events_stays_inactive cfg es w1 Hes Hoff) as Hrun.
  split; [exact Hrun|]. apply tick_inactive. exact Hrun.
Qed.

Lemma commanded_motion_stops_scanning_first_witness :
  let d := fields "MOVE_RIGHT" (JNum (1 # 2)) in
  let w1 := fst (on_message config (Some (JObj d)) 210 scanning) in
  (exists rest,
     calls w1 = calls scanning ++ ScannerStop :: rest /\
     ~ In ScannerStart rest) /\
  _active (scanner w1) = false /\
  forall (es : list event) (now' : Z),
    Forall no_scan_request es ->
    _active (scanner (run_events config es w1)) = false /\
    tick config now' (run_events config es w1) = run_events config es w1.
Proof.
  intros d.
  apply (commanded_motion_stops_scanning_first
           config d "MOVE_RIGHT" 210 scanning).
  - reflexivity.
  - right. left. reflexivity.
Defined.

(** The scenario of a sweeping scanner that receives MOVE_RIGHT: the calls
    are the stop, then the duty of the proportional move; the ticks that
    follow write nothing. *)
Example move_right_while_scanning :
  let w1 :=
    run_events config
      [Inbound (Some (JObj (fields "MOVE_RIGHT" (JNum (1 # 2))))) 210;
       Tick 400; Tick 600] scanning in
  _active (scanner scanning) = true /\
  _active (scanner w1) = false /\
  get_angle w1 = 98 /\
  calls w1
  = calls scanning
    ++ [ScannerStop; PwmDuty 80; Print (ServoRight 98 (JNum (1 # 2)))].
Proof. vm_compute. repeat split. Qed.

(** A payload that is not valid JSON is logged and dropped: the handler
    returns, the servo and the scanner are as before. *)
Lemma on_message_invalid_json (cfg : Config) (now : Z) (w : World) :
  on_message cfg None now w = (emit (Print BadMessage) w, Returned).
Proof. reflexivity. Qed.

(** A decoded value that is not an object leaves the handler by an
    [AttributeError]. *)
Lemma on_message_not_an_object (cfg : Config) (v : json) (now : Z) (w : World) :
  (forall d, v <> JObj d) ->
  on_message cfg (Some v) now w = (w, Raised AttributeError).
Proof. intros H. destruct v; try reflexivity. destruct (H d). reflexivity. Qed.

(** C5, on two payloads that fail to parse as a valid message.  The JSON
    array [[1]] leaves the handler by an [AttributeError], nothing being
    logged.  The object with status MOVE_LEFT and the string "far" as
    offset, received while scanning, leaves it by a [TypeError] after the
    scanner has been stopped. *)
Theorem on_message_malformed_payload_escapes :
  on_message config (Some (JArr [JNum 1])) 0 scanning
  = (scanning, Raised AttributeError) /\
  (let r :=
     on_message config (Some (JObj (fields "MOVE_LEFT" (JStr "far")))) 0
       scanning in
   snd r = Raised TypeError /\
   _active (scanner scanning) = true /\
   _active (scanner (fst r)) = false /\
   calls (fst r) = calls scanning ++ [ScannerStop]).
Proof. vm_compute. repeat split. Qed.

(** C10.  An object without the key "status" is handled with the status
    [""], which no branch matches: the unknown status is printed, the
    handler returns, servo and scanner are as before.  An object without
    the key "offset" is handled with the offset 0.0: for the status
    MOVE_LEFT (MOVE_RIGHT) the scanner is stopped and the servo is set to
    the angle minus (plus) [SERVO_STEP_MIN], clamped to the limits. *)
Theorem missing_fields_take_defaults
    (cfg : Config) (d : gmap string json) (now : Z) (w : World) :
  (d !! "status"%string = None ->
   on_message cfg (Some (JObj d)) now w
   = (emit (Print (UnknownStatus (JStr ""))) w, Returned)) /\
  (d !! "offset"%string = None ->
   proportional_step cfg (Qabs 0) = SERVO_STEP_MIN cfg /\
   (d !! "status"%string = Some (JStr "MOVE_LEFT") ->
    exists w',
      on_message cfg (Some (JObj d)) now w = (w', Returned) /\
      get_angle w' = clamp cfg (get_angle w - SERVO_STEP_MIN cfg) /\
      scanner w' = scanner (stop w) /\
      calls w'
      = calls w
        ++ [ScannerStop;
            PwmDuty (angle_to_duty cfg (servo w') (get_angle w'));
            Print (ServoLeft (get_angle w') (JNum 0))]) /\
   (d !! "status"%string = Some (JStr "MOVE_RIGHT") ->
    exists w',
      on_message cfg (Some (JObj d)) now w = (w', Returned) /\
      get_angle w' = clamp cfg (get_angle w + SERVO_STEP_MIN cfg) /\
      scanner w' = scanner (stop w) /\
      calls w'
      = calls w
        ++ [ScannerStop;
            PwmDuty (angle_to_duty cfg (servo w') (get_angle w'));
            Print (ServoRight (get_angle w') (JNum 0))])).
Proof.
  split.
  - intros Hs. unfold on_message, get. rewrite Hs. reflexivity.
  - intros Ho. split; [apply proportional_step_zero|].
    split; intros Hs; unfold on_message, get; rewrite Hs, Ho;
      cbn [is_str py_abs];
      (eexists; split; [reflexivity|]);
      unfold move_proportional;
      change (proportional_step cfg (Qabs 0)) with (proportional_step cfg 0);
      rewrite proportional_step_zero;
      unfold stop, set_angle, get_angle, with_scanner, with_servo, emit;
      cbn [servo scanner calls _angle duty_min duty_max];
      rewrite <- !app_assoc; cbn [app];
      (split; [f_equal; lia|split; reflexivity]).
Qed.

(** The shipped configuration on messages with a key missing, from the
    centred servo: no status changes nothing, no offset moves by one
    degree. *)
Example missing_fields_scenario :
  let no_status : gmap string json := {[ "offset"%string := JNum (1 # 4) ]} in
  let no_offset : gmap string json :=
    {[ "status"%string := JStr "MOVE_RIGHT" ]} in
  let w := boot config in
  on_message config (Some (JObj no_status)) 0 w
  = (emit (Print (UnknownStatus (JStr ""))) w, Returned) /\
  get_angle (fst (on_message config (Some (JObj no_offset)) 0 w)) = 91 /\
  snd (on_message config (Some (JObj no_offset)) 0 w) = Returned.
Proof. vm_compute. repeat split. Qed.

End HandlerClaims.

(** * Further properties of the code *)

(** ** Servo: duty range and step range *)

Section ServoRanges.

Import Esp8266.

Local Open Scope Z_scope.

Lemma clamp_le (cfg : Config) (a b : Z) : a <= b -> clamp cfg a <= clamp cfg b.
Proof. unfold clamp. lia. Qed.

Lemma duty_value_le (lo hi a b : Z) :
  lo <= hi -> a <= b ->
  (inject_Z lo + inject_Z ((hi - lo) * a) / inject_Z 180
   <= inject_Z lo + inject_Z ((hi - lo) * b) / inject_Z 180)%Q.
Proof.
  intros Hd Hab. apply Qplus_le_compat; [apply Qle_refl|].
  unfold Qdiv. apply Qmult_le_compat_r; [|discriminate].
  rewrite <- Zle_Qle. nia.
Qed.

Lemma angle_to_duty_bounds (cfg : Config) (self : Servo) (a b : Z) :
  0 <= SERVO_MIN_ANGLE cfg -> SERVO_MIN_ANGLE cfg <= SERVO_MAX_ANGLE cfg ->
  SERVO_MAX_ANGLE cfg <= 180 ->
  duty_min self <= duty_max self ->
  duty_min self <= angle_to_duty cfg self a <= duty_max self /\
  (a <= b -> angle_to_duty cfg self a <= angle_to_duty cfg self b).
Proof.
  intros H0 Hcfg H180 Hd. unfold angle_to_duty.
  pose proof (clamp_bounds cfg a Hcfg) as Ha.
  split; [split|].
  - apply Z.le_trans with (py_int (inject_Z (duty_min self)));
      [rewrite py_int_inject_Z; lia|]. apply py_int_le.
    eapply Qle_trans;
      [|apply (duty_value_le (duty_min self) (duty_max self) 0 (clamp cfg a));
        lia].
    rewrite Z.mul_0_r. apply Qle_lteq. right.
    change (inject_Z 0) with 0%Q. field.
  - apply Z.le_trans with (py_int (inject_Z (duty_max self)));
      [|rewrite py_int_inject_Z; lia]. apply py_int_le.
    eapply Qle_trans;
      [apply (duty_value_le (duty_min self) (duty_max self) (clamp cfg a) 180);
       lia|].
    apply Qle_lteq. right.
    rewrite inject_Z_mult. unfold Z.sub. rewrite inject_Z_plus, inject_Z_opp.
    field.
  - intros Hab. apply py_int_le. apply duty_value_le; [exact Hd|].
    apply clamp_le. exact Hab.
Qed.

(** The duty of an angle lies between the two calibration duties, and a
    larger angle never gets a smaller duty, when the limits are within
    0..180 and [duty_min <= duty_max]. *)
Theorem angle_to_duty_within_calibration
    (cfg : Config) (self : Servo) (a b : Z) :
  0 <= SERVO_MIN_ANGLE cfg -> SERVO_MIN_ANGLE cfg <= SERVO_MAX_ANGLE cfg ->
  SERVO_MAX_ANGLE cfg <= 180 ->
  duty_min self <= duty_max self ->
  duty_min self <= angle_to_duty cfg self a <= duty_max self /\
  (a <= b -> angle_to_duty cfg self a <= angle_to_duty cfg self b).
Proof. apply angle_to_duty_bounds. Qed.

Lemma angle_to_duty_within_calibration_witness :
  let self := servo (boot config) in
  (duty_min self <= angle_to_duty config self 37 <= duty_max self) /\
  angle_to_duty config self 37 <= angle_to_duty config self 250.
Proof.
  intros self.
  destruct (angle_to_duty_within_calibration config self 37 250)
    as [Hrange Hmono]; try discriminate.
  split; [exact Hrange|apply Hmono; discriminate].
Defined.

Lemma py_min_upper (a b : Q) : (py_min a b <= b)%Q.
Proof.
  unfold py_min. destruct (Qle_bool a b) eqn:E.
  - apply Qle_bool_iff. exact E.
  - apply Qle_refl.
Qed.

Lemma py_min_lower (a b c : Q) : (c <= a)%Q -> (c <= b)%Q -> (c <= py_min a b)%Q.
Proof. intros Ha Hb. unfold py_min. destruct (Qle_bool a b); assumption. Qed.

Lemma proportional_step_bounds (cfg : Config) (offset_abs : Q) :
  SERVO_STEP_MIN cfg <= SERVO_STEP_MAX cfg ->
  (0 <= offset_abs)%Q ->
  SERVO_STEP_MIN cfg <= proportional_step cfg offset_abs
  <= SERVO_STEP_MAX cfg.
Proof.
  intros Hcfg Ho. unfold proportional_step.
  set (t := py_min (offset_abs / (4 # 10)) 1).
  assert (Ht0 : (0 <= t)%Q).
  { apply py_min_lower; [|discriminate].
    apply Qle_shift_div_l; [reflexivity|]. rewrite Qmult_0_l. exact Ho. }
  assert (Ht1 : (t <= 1)%Q) by apply py_min_upper.
  assert (Hk : (0 <= inject_Z (SERVO_STEP_MAX cfg - SERVO_STEP_MIN cfg))%Q).
  { change 0%Q with (inject_Z 0). rewrite <- Zle_Qle. lia. }
  split.
  - apply Z.le_trans with (py_int (inject_Z (SERVO_STEP_MIN cfg)));
      [rewrite py_int_inject_Z; lia|]. apply py_int_le.
    rewrite <- (Qplus_0_r (inject_Z (SERVO_STEP_MIN cfg))) at 1.
    apply Qplus_le_compat; [apply Qle_refl|].
    apply Qmult_le_0_compat; assumption.
  - apply Z.le_trans with (py_int (inject_Z (SERVO_STEP_MAX cfg)));
      [|rewrite py_int_inject_Z; lia]. apply py_int_le.
    apply Qle_trans
      with (inject_Z (SERVO_STEP_MIN cfg)
            + inject_Z (SERVO_STEP_MAX cfg - SERVO_STEP_MIN cfg) * 1)%Q.
    + apply Qplus_le_compat; [apply Qle_refl|].
      rewrite !(Qmult_comm (inject_Z _)).
      apply Qmult_le_compat_r; assumption.
    + rewrite Qmult_1_r, <- inject_Z_plus, <- Zle_Qle. lia.
Qed.

(** For an offset that is not negative, the step is between
    [SERVO_STEP_MIN] and [SERVO_STEP_MAX]. *)
Theorem proportional_step_within_steps (cfg : Config) (offset_abs : Q) :
  SERVO_STEP_MIN cfg <= SERVO_STEP_MAX cfg ->
  (0 <= offset_abs)%Q ->
  SERVO_STEP_MIN cfg <= proportional_step cfg offset_abs
  <= SERVO_STEP_MAX cfg.
Proof. apply proportional_step_bounds. Qed.

Lemma proportional_step_within_steps_witness :
  SERVO_STEP_MIN config <= proportional_step config (3 # 10)
  <= SERVO_STEP_MAX config.
Proof.
  apply (proportional_step_within_steps config (3 # 10)); discriminate.
Defined.

End ServoRanges.

(** ** Handler: what a message can do *)

Section HandlerEffects.

Import Esp8266.

Local Open Scope Z_scope.

Ltac split_handler :=
  unfold on_message;
  repeat match goal with
    | |- context [if is_str ?v ?s then _ else _] =>
        let E := fresh "E" in destruct (is_str v s) eqn:E
    | |- context [match py_abs ?v with Some _ => _ | None => _ end] =>
        let E := fresh "E" in destruct (py_abs v) eqn:E
    end.

(** A MOVE_LEFT (MOVE_RIGHT) message with a numeric offset, on a servo
    within its limits: the handler returns; the new angle is the old one
    minus (plus) the proportional step of the magnitude of the offset,
    clamped; so the servo never moves against the commanded direction and
    never by more than [SERVO_STEP_MAX], whatever the sign of the offset. *)
Theorem move_message_pans_in_its_direction
    (cfg : Config) (d : gmap string json) (status : string) (direction : Z)
    (offset : Q) (now : Z) (w : World) :
  SERVO_MIN_ANGLE cfg <= get_angle w <= SERVO_MAX_ANGLE cfg ->
  0 <= SERVO_STEP_MIN cfg <= SERVO_STEP_MAX cfg ->
  (status = "MOVE_LEFT"%string /\ direction = -1)
  \/ (status = "MOVE_RIGHT"%string /\ direction = 1) ->
  d !! "status"%string = Some (JStr status) ->
  d !! "offset"%string = Some (JNum offset) ->
  let r := on_message cfg (Some (JObj d)) now w in
  let moved := get_angle (fst r) - get_angle w in
  snd r = Returned /\
  get_angle (fst r)
  = clamp cfg (get_angle w + direction * proportional_step cfg (Qabs offset)) /\
  0 <= direction * moved <= SERVO_STEP_MAX cfg.
Proof.
  intros Hw Hsteps Hdir Hs Ho.
  pose proof (proportional_step_bounds cfg (Qabs offset)
                ltac:(lia) (Qabs_nonneg offset)) as Hstep.
  intros r moved.
  assert (Hr : snd r = Returned /\
               get_angle (fst r)
               = clamp cfg (get_angle w
                            + direction * proportional_step cfg (Qabs offset))).
  { subst r. unfold on_message, get. rewrite Hs, Ho.
    destruct Hdir as [[-> ->] | [-> ->]]; simpl; split; reflexivity. }
  destruct Hr as [Hret Hang]. split; [exact Hret|]. split; [exact Hang|].
  subst moved. rewrite Hang. unfold clamp.
  destruct Hdir as [[_ ->] | [_ ->]]; lia.
Qed.

Lemma move_message_pans_in_its_direction_witness :
  let r :=
    on_message config (Some (JObj (fields "MOVE_LEFT" (JNum (1 # 4))))) 0
      (boot config) in
  let moved := get_angle (fst r) - get_angle (boot config) in
  snd r = Returned /\
  get_angle (fst r)
  = clamp config
      (get_angle (boot config) + -1 * proportional_step config (Qabs (1 # 4))) /\
  0 <= -1 * moved <= SERVO_STEP_MAX config.
Proof.
  apply (move_message_pans_in_its_direction
           config (fields "MOVE_LEFT" (JNum (1 # 4))) "MOVE_LEFT" (-1)
           (1 # 4) 0 (boot config)).
  - split; discriminate.
  - split; discriminate.
  - left. split; reflexivity.
  - reflexivity.
  - reflexivity.
Defined.

(** Only MOVE_LEFT and MOVE_RIGHT reach the servo: for every other
    delivery (CENTERED, NO_FACE, an unknown status, invalid JSON, a value
    that is not an object) the servo is as before and no duty is written. *)
Theorem only_move_messages_reach_the_servo
    (cfg : Config) (loaded : option json) (now : Z) (w : World) :
  status_of loaded <> Some "MOVE_LEFT"%string ->
  status_of loaded <> Some "MOVE_RIGHT"%string ->
  let w' := fst (on_message cfg loaded now w) in
  servo w' = servo w /\
  forall duty, In (PwmDuty duty) (calls w') -> In (PwmDuty duty) (calls w).
Proof.
  intros Hl Hr.
  assert (Hemit : forall c, (forall x, c <> PwmDuty x) ->
            forall duty, In (PwmDuty duty) (calls w ++ [c]) ->
                         In (PwmDuty duty) (calls w)).
  { intros c Hc duty Hin. apply in_app_or in Hin.
    destruct Hin as [Hin|[Hin|[]]]; [exact Hin|]. destruct (Hc duty Hin). }
  destruct loaded as [[| | | | |d]|]; simpl; try (split; [reflexivity|tauto]).
  - simpl in Hl, Hr. split_handler; simpl.
    + exfalso. apply Hl. apply is_str_true in E. rewrite E. reflexivity.
    + exfalso. apply Hl. apply is_str_true in E. rewrite E. reflexivity.
    + exfalso. apply Hr. apply is_str_true in E0. rewrite E0. reflexivity.
    + exfalso. apply Hr. apply is_str_true in E0. rewrite E0. reflexivity.
    + split; [reflexivity|]. apply Hemit. discriminate.
    + unfold start. simpl. destruct (negb _); simpl;
        (split; [reflexivity|]); apply Hemit; discriminate.
    + split; [reflexivity|]. apply Hemit. discriminate.
  - split; [reflexivity|]. apply Hemit. discriminate.
Qed.

Lemma only_move_messages_reach_the_servo_witness :
  let w' :=
    fst (on_message config (Some (JObj (fields "CENTERED" (JNum (1 # 100)))))
           0 scanning) in
  servo w' = servo scanning /\
  forall duty,
    In (PwmDuty duty) (calls w') -> In (PwmDuty duty) (calls scanning).
Proof.
  apply (only_move_messages_reach_the_servo
           config (Some (JObj (fields "CENTERED" (JNum (1 # 100))))) 0
           scanning); discriminate.
Defined.

(** An object whose status is none of the four known strings (or is
    missing, or is not a string) is reported and ignored: the handler
    returns and both the servo and the scanner are as before. *)
Theorem unknown_status_is_ignored
    (cfg : Config) (d : gmap string json) (now : Z) (w : World) :
  (forall s, status_of (Some (JObj d)) = Some s ->
     ~ In s ["MOVE_LEFT"; "MOVE_RIGHT"; "CENTERED"; "NO_FACE"]%string) ->
  let r := on_message cfg (Some (JObj d)) now w in
  snd r = Returned /\
  servo (fst r) = servo w /\
  scanner (fst r) = scanner w /\
  calls (fst r)
  = calls w ++ [Print (UnknownStatus (get d "status" (JStr "")))].
Proof.
  intros Hs. simpl in Hs.
  assert (Hno : forall s,
            In s ["MOVE_LEFT"; "MOVE_RIGHT"; "CENTERED"; "NO_FACE"]%string ->
            is_str (get d "status" (JStr "")) s = false).
  { intros s Hin. destruct (is_str _ s) eqn:E; [|reflexivity].
    apply is_str_true in E. exfalso. apply (Hs s); [|exact Hin].
    rewrite E. reflexivity. }
  unfold on_message.
  rewrite !Hno by (simpl; tauto). repeat split.
Qed.

Lemma unknown_status_is_ignored_witness :
  let d := fields "SPIN" (JNum (1 # 4)) in
  let r := on_message config (Some (JObj d)) 0 scanning in
  snd r = Returned /\
  servo (fst r) = servo scanning /\
  scanner (fst r) = scanner scanning /\
  calls (fst r)
  = calls scanning ++ [Print (UnknownStatus (get d "status" (JStr "")))].
Proof.
  intros d. apply (unknown_status_is_ignored config d 0 scanning).
  intros s Hs. injection Hs as <-. simpl.
  intros [H|[H|[H|[H|[]]]]]; discriminate H.
Defined.

(** The handler is left by an exception exactly in two cases: the decoded
    value is not an object, or the status is MOVE_LEFT or MOVE_RIGHT and
    the offset is neither a number nor a boolean. *)
Theorem on_message_raises_exactly_when
    (cfg : Config) (loaded : option json) (now : Z) (w : World) :
  snd (on_message cfg loaded now w) <> Returned <->
  (exists v, loaded = Some v /\ forall d, v <> JObj d) \/
  (exists d offset,
     loaded = Some (JObj d) /\
     (status_of loaded = Some "MOVE_LEFT"%string
      \/ status_of loaded = Some "MOVE_RIGHT"%string) /\
     get d "offset" (JNum 0) = offset /\
     (forall x, offset <> JNum x) /\ (forall b, offset <> JBool b)).
Proof.
  assert (Habs : forall v, py_abs v = None <->
            (forall x, v <> JNum x) /\ (forall b, v <> JBool b)).
  { intros v. destruct v; simpl; split; try discriminate; try tauto;
      try (intros; split; discriminate).
    - intros [_ H]. destruct (H b). reflexivity.
    - intros [H _]. destruct (H x). reflexivity. }
  split.
  - destruct loaded as [[| | | | |d]|]; simpl;
      try (intros _; left; eexists; split; [reflexivity|discriminate]).
    + split_handler; simpl; try (intros H; destruct H; reflexivity); intros _;
        right; exists d, (get d "offset" (JNum 0));
        (split; [reflexivity|]); simpl.
      * apply is_str_true in E. rewrite E.
        split; [left; reflexivity|]. split; [reflexivity|].
        apply Habs. exact E0.
      * apply is_str_true in E0. rewrite E0.
        split; [right; reflexivity|]. split; [reflexivity|].
        apply Habs. exact E1.
    + intros H. destruct H. reflexivity.
  - intros [(v & -> & Hv) | (d & offset & -> & Hs & Ho & Hn)].
    + destruct v; simpl; try discriminate. destruct (Hv d). reflexivity.
    + apply Habs in Hn. subst offset. simpl in Hs. unfold on_message.
      destruct (get d "status" (JStr "")) as [| | |s| |] eqn:Es;
        try (destruct Hs; discriminate).
      destruct Hs as [[= ->] | [= ->]]; simpl; rewrite Hn; discriminate.
Qed.

End HandlerEffects.

(** ** Scanner: timer, direction and step *)

Section ScannerFacts.

Import Esp8266.

Local Open Scope Z_scope.

(** A NO_FACE message starts the sweep only when it is not running: on an
    inactive scanner the timer is set to the clock reading and the
    direction of the last sweep is kept; on an active scanner nothing but
    the record of the call changes, so repeated NO_FACE messages do not
    postpone the next step.  The servo is not touched in either case. *)
Theorem no_face_starts_the_sweep_once
    (cfg : Config) (d : gmap string json) (now : Z) (w : World) :
  d !! "status"%string = Some (JStr "NO_FACE") ->
  let r := on_message cfg (Some (JObj d)) now w in
  snd r = Returned /\
  servo (fst r) = servo w /\
  (_active (scanner w) = true -> scanner (fst r) = scanner w) /\
  (_active (scanner w) = false ->
   scanner (fst r)
   = {| _direction := _direction (scanner w); _last_tick := now;
        _active := true |}).
Proof.
  intros Hs. unfold on_message, get. rewrite Hs. simpl. unfold start. simpl.
  destruct (_active (scanner w)) eqn:Ea; simpl; repeat split;
    try discriminate.
Qed.

Lemma no_face_starts_the_sweep_once_witness :
  let r :=
    on_message config (Some (JObj (fields "NO_FACE" (JNum 0)))) 70 scanning in
  snd r = Returned /\
  servo (fst r) = servo scanning /\
  scanner (fst r) = scanner scanning.
Proof.
  destruct (no_face_starts_the_sweep_once
              config (fields "NO_FACE" (JNum 0)) 70 scanning)
    as (Hret & Hservo & Hon & _).
  - reflexivity.
  - split; [exact Hret|]. split; [exact Hservo|]. apply Hon. reflexivity.
Defined.

Lemma apply_op_direction (cfg : Config) (o : op) (w : World) :
  _direction (scanner w) = 1 \/ _direction (scanner w) = -1 ->
  _direction (scanner (apply_op cfg o w)) = 1
  \/ _direction (scanner (apply_op cfg o w)) = -1.
Proof.
  intros Hw. destruct o; simpl; try exact Hw.
  - unfold tick. destruct (negb _); [exact Hw|].
    destruct (_ <? _); [exact Hw|]. simpl. unfold scan_direction.
    destruct (_ <=? _); [right; reflexivity|].
    destruct (_ <=? _); [left; reflexivity|exact Hw].
  - unfold start. simpl. destruct (negb _); exact Hw.
  - destruct loaded as [[| | | | |d]|]; try exact Hw.
    unfold on_message.
    repeat match goal with
      | |- context [if is_str ?v ?s then _ else _] => destruct (is_str v s)
      | |- context [match py_abs ?v with Some _ => _ | None => _ end] =>
          destruct (py_abs v)
      end; simpl; try exact Hw.
    unfold start. simpl. destruct (negb _); exact Hw.
Qed.

(** The sweep direction is +1 or -1 after every sequence of calls from
    the world the module-level statements build. *)
Theorem direction_is_a_unit (cfg : Config) (os : list op) :
  let w := run_ops cfg os (boot cfg) in
  _direction (scanner w) = 1 \/ _direction (scanner w) = -1.
Proof.
  simpl.
  assert (H : forall w,
            _direction (scanner w) = 1 \/ _direction (scanner w) = -1 ->
            _direction (scanner (run_ops cfg os w)) = 1
            \/ _direction (scanner (run_ops cfg os w)) = -1).
  { induction os as [|o os IH]; intros w Hw; [exact Hw|].
    simpl. apply IH. apply apply_op_direction. exact Hw. }
  apply H. left. reflexivity.
Qed.

(** With a step that is not negative and the two reversal bands apart, a
    tick that is due on an active scanner moves a servo that is within its
    limits by exactly [SCAN_STEP] in the direction it leaves set: the
    clamp of [set_angle] never cuts a scan step. *)
Theorem due_tick_moves_by_exactly_scan_step
    (cfg : Config) (now : Z) (w : World) :
  0 <= SCAN_STEP cfg ->
  SERVO_MIN_ANGLE cfg + SCAN_STEP cfg < SERVO_MAX_ANGLE cfg - SCAN_STEP cfg ->
  SERVO_MIN_ANGLE cfg <= get_angle w <= SERVO_MAX_ANGLE cfg ->
  _direction (scanner w) = 1 \/ _direction (scanner w) = -1 ->
  _active (scanner w) = true ->
  SCAN_DELAY_MS cfg <= ticks_diff now (_last_tick (scanner w)) ->
  let w' := tick cfg now w in
  get_angle w' = get_angle w + _direction (scanner w') * SCAN_STEP cfg /\
  Z.abs (get_angle w' - get_angle w) = SCAN_STEP cfg.
Proof.
  intros Hstep Hbands Hw Hdir Hact Hdue. unfold tick. rewrite Hact.
  simpl negb. cbv iota.
  destruct (Z.ltb_spec (ticks_diff now (_last_tick (scanner w)))
              (SCAN_DELAY_MS cfg)) as [Hlt|_]; [lia|].
  simpl. unfold scan_direction.
  destruct (Z.leb_spec (SERVO_MAX_ANGLE cfg - SCAN_STEP cfg) (get_angle w));
    [|destruct (Z.leb_spec (get_angle w) (SERVO_MIN_ANGLE cfg + SCAN_STEP cfg))];
    destruct Hdir as [Hd | Hd]; try rewrite Hd;
    rewrite !get_angle_set_angle; unfold clamp; lia.
Qed.

Lemma due_tick_moves_by_exactly_scan_step_witness :
  let w' := tick config 100 scanning in
  get_angle w' = get_angle scanning + _direction (scanner w') * SCAN_STEP config /\
  Z.abs (get_angle w' - get_angle scanning) = SCAN_STEP config.
Proof.
  apply (due_tick_moves_by_exactly_scan_step config 100 scanning).
  - discriminate.
  - reflexivity.
  - split; discriminate.
  - left. reflexivity.
  - reflexivity.
  - discriminate.
Defined.

(** The tick counter wraps around at [TICKS_PERIOD]; [ticks_diff] still
    gives the time passed, up to half a period. *)
Lemma ticks_diff_wraps (last elapsed : Z) :
  0 <= elapsed < TICKS_PERIOD / 2 ->
  ticks_diff ((last + elapsed) mod TICKS_PERIOD) last = elapsed.
Proof.
  intros H. unfold ticks_diff.
  replace ((last + elapsed) mod TICKS_PERIOD - last + TICKS_PERIOD / 2)
    with ((last + elapsed) mod TICKS_PERIOD + (TICKS_PERIOD / 2 - last))
    by lia.
  rewrite Z.add_mod_idemp_l by discriminate.
  replace (last + elapsed + (TICKS_PERIOD / 2 - last))
    with (elapsed + TICKS_PERIOD / 2) by lia.
  rewrite Z.mod_small; [lia|].
  change TICKS_PERIOD with 1073741824 in *.
  change (1073741824 / 2) with 536870912 in *. lia.
Qed.

(** The scan delay holds across the wrap of the tick counter: on an
    active scanner, a tick read [elapsed] milliseconds after the last one
    (less than half a counter period) changes nothing while
    [elapsed < SCAN_DELAY_MS], and otherwise records the reading as the new
    last tick and sets the servo one scan step further. *)
Theorem tick_waits_for_the_scan_delay
    (cfg : Config) (elapsed : Z) (w : World) :
  _active (scanner w) = true ->
  0 <= elapsed < TICKS_PERIOD / 2 ->
  let now := (_last_tick (scanner w) + elapsed) mod TICKS_PERIOD in
  let w' := tick cfg now w in
  (elapsed < SCAN_DELAY_MS cfg -> w' = w) /\
  (SCAN_DELAY_MS cfg <= elapsed ->
   _last_tick (scanner w') = now /\
   get_angle w'
   = clamp cfg (get_angle w + _direction (scanner w') * SCAN_STEP cfg) /\
   calls w'
   = calls w ++ [PwmDuty (angle_to_duty cfg (servo w') (get_angle w'))]).
Proof.
  intros Hact Hel now w'. subst w'. unfold tick. rewrite Hact. simpl negb.
  cbv iota. subst now. rewrite ticks_diff_wraps by exact Hel.
  destruct (Z.ltb_spec elapsed (SCAN_DELAY_MS cfg)); split; intros;
    try lia; try reflexivity.
  repeat split.
Qed.

Lemma tick_waits_for_the_scan_delay_witness :
  let w := with_scanner
             {| _direction := 1; _last_tick := TICKS_PERIOD - 30;
                _active := true |} (boot config) in
  let now := (_last_tick (scanner w) + 120) mod TICKS_PERIOD in
  let w' := tick config now w in
  now = 90 /\
  _last_tick (scanner w') = now /\
  get_angle w'
  = clamp config (get_angle w + _direction (scanner w') * SCAN_STEP config).
Proof.
  intros w.
  destruct (tick_waits_for_the_scan_delay config 120 w) as [_ Hdue].
  - reflexivity.
  - split; [discriminate|reflexivity].
  - destruct Hdue as (Hlast & Hangle & _); [discriminate|].
    split; [reflexivity|]. split; [exact Hlast|exact Hangle].
Defined.

End ScannerFacts.

(** ** Every duty written is a calibrated one *)

Section DutyTrace.

Import Esp8266.

Variable cfg : Config.

Hypothesis limits_in_range :
  (0 <= SERVO_MIN_ANGLE cfg /\ SERVO_MIN_ANGLE cfg <= SERVO_MAX_ANGLE cfg
   /\ SERVO_MAX_ANGLE cfg <= 180)%Z.

Hypothesis duties_ordered : (DUTY_MIN cfg <= DUTY_MAX cfg)%Z.

Local Open Scope Z_scope.

Let calibrated (w : World) : Prop :=
  duty_min (servo w) = DUTY_MIN cfg /\
  duty_max (servo w) = DUTY_MAX cfg /\
  forall duty, In (PwmDuty duty) (calls w) ->
    DUTY_MIN cfg <= duty <= DUTY_MAX cfg.

Lemma calibrated_emit (c : call) (w : World) :
  (forall duty, c = PwmDuty duty -> DUTY_MIN cfg <= duty <= DUTY_MAX cfg) ->
  calibrated w -> calibrated (emit c w).
Proof.
  intros Hc (Hlo & Hhi & Hw). split; [exact Hlo|]. split; [exact Hhi|].
  intros duty Hin. simpl in Hin. apply in_app_or in Hin.
  destruct Hin as [Hin|[Hin|[]]]; [apply Hw; exact Hin|apply Hc; exact Hin].
Qed.

Lemma calibrated_with_scanner (s : Scanner) (w : World) :
  calibrated w -> calibrated (with_scanner s w).
Proof. intros H. exact H. Qed.

Lemma calibrated_set_angle (angle : Z) (w : World) :
  calibrated w -> calibrated (set_angle cfg angle w).
Proof.
  intros (Hlo & Hhi & Hw). unfold set_angle.
  apply calibrated_emit.
  - intros duty [= <-]. rewrite <- Hlo, <- Hhi.
    destruct limits_in_range as (H0 & Hcfg & H180).
    apply (angle_to_duty_bounds cfg
             {| duty_min := duty_min (servo w); duty_max := duty_max (servo w);
                _angle := clamp cfg angle |} (clamp cfg angle) 0);
      simpl; lia.
  - split; [exact Hlo|]. split; [exact Hhi|exact Hw].
Qed.

Lemma calibrated_start (now : Z) (w : World) :
  calibrated w -> calibrated (start now w).
Proof.
  intros H. unfold start. simpl.
  assert (He : calibrated (emit ScannerStart w))
    by (apply calibrated_emit; [discriminate|exact H]).
  destruct (negb _); exact He.
Qed.

Lemma calibrated_stop (w : World) : calibrated w -> calibrated (stop w).
Proof.
  intros H. unfold stop.
  apply calibrated_with_scanner, calibrated_emit; [discriminate|exact H].
Qed.

Lemma calibrated_tick (now : Z) (w : World) :
  calibrated w -> calibrated (tick cfg now w).
Proof.
  intros H. unfold tick. destruct (negb _); [exact H|].
  destruct (_ <? _); [exact H|].
  apply calibrated_set_angle, calibrated_with_scanner, H.
Qed.

Lemma calibrated_on_message (loaded : option json) (now : Z) (w : World) :
  calibrated w -> calibrated (fst (on_message cfg loaded now w)).
Proof.
  intros H. destruct loaded as [[| | | | |d]|]; try exact H.
  - unfold on_message.
    repeat match goal with
      | |- context [if is_str ?v ?s then _ else _] => destruct (is_str v s)
      | |- context [match py_abs ?v with Some _ => _ | None => _ end] =>
          destruct (py_abs v)
      end; cbn [fst].
    + apply calibrated_emit; [discriminate|].
      apply calibrated_set_angle, calibrated_stop, H.
    + apply calibrated_stop, H.
    + apply calibrated_emit; [discriminate|].
      apply calibrated_set_angle, calibrated_stop, H.
    + apply calibrated_stop, H.
    + apply calibrated_stop, H.
    + apply calibrated_start, H.
    + apply calibrated_emit; [discriminate|exact H].
  - apply calibrated_emit; [discriminate|exact H].
Qed.

Lemma calibrated_apply_op (o : op) (w : World) :
  calibrated w -> calibrated (apply_op cfg o w).
Proof.
  intros H. destruct o; simpl.
  - apply calibrated_set_angle, H.
  - apply calibrated_set_angle, H.
  - apply calibrated_set_angle, H.
  - apply calibrated_tick, H.
  - apply calibrated_start, H.
  - apply calibrated_stop, H.
  - apply calibrated_on_message, H.
Qed.

Lemma calibrated_run_ops (os : list op) (w : World) :
  calibrated w -> calibrated (run_ops cfg os w).
Proof.
  revert w. induction os as [|o os IH]; intros w H; [exact H|].
  simpl. apply IH, calibrated_apply_op, H.
Qed.

Lemma calibrated_boot : calibrated (boot cfg).
Proof.
  unfold boot. apply calibrated_emit; [discriminate|].
  apply calibrated_set_angle. split; [reflexivity|]. split; [reflexivity|].
  intros x [].
Qed.

End DutyTrace.

(** With the limits within 0..180 and [DUTY_MIN <= DUTY_MAX], every duty
    written to the PWM pin, from the module-level statements on and
    through any sequence of calls and handled messages, lies between
    [DUTY_MIN] and [DUTY_MAX]. *)
Theorem every_duty_written_is_calibrated
    (cfg : Esp8266.Config) (os : list Esp8266.op) (duty : Z) :
  (0 <= Esp8266.SERVO_MIN_ANGLE cfg)%Z ->
  (Esp8266.SERVO_MIN_ANGLE cfg <= Esp8266.SERVO_MAX_ANGLE cfg)%Z ->
  (Esp8266.SERVO_MAX_ANGLE cfg <= 180)%Z ->
  (Esp8266.DUTY_MIN cfg <= Esp8266.DUTY_MAX cfg)%Z ->
  In (Esp8266.PwmDuty duty)
     (Esp8266.calls (Esp8266.run_ops cfg os (Esp8266.boot cfg))) ->
  (Esp8266.DUTY_MIN cfg <= duty <= Esp8266.DUTY_MAX cfg)%Z.
Proof.
  intros H0 Hcfg H180 Hd Hin.
  pose proof (calibrated_run_ops cfg (conj H0 (conj Hcfg H180)) Hd os
                (Esp8266.boot cfg)
                (calibrated_boot cfg (conj H0 (conj Hcfg H180)) Hd))
    as (_ & _ & H).
  apply H. exact Hin.
Qed.

Lemma every_duty_written_is_calibrated_witness :
  (Esp8266.DUTY_MIN Esp8266.config <= 78
   <= Esp8266.DUTY_MAX Esp8266.config)%Z.
Proof.
  apply (every_duty_written_is_calibrated Esp8266.config
           [Esp8266.OpStart 0; Esp8266.OpTick 100] 78);
    try discriminate.
  vm_compute. do 3 right. left. reflexivity.
Defined.

(** ** Detector: publication, hysteresis band, ranges, errors *)

Section DetectorEffects.

Import MovementDetector.

Variable MIN_PUBLISH_INTERVAL : Q.

Local Open Scope Q_scope.

Lemma compute_emitted_inv (now : Q) (fr : FrameResult) (frame_width : Z)
    (self self' : Detector) (ev : Event) :
  compute MIN_PUBLISH_INTERVAL now fr frame_width self = Ok (Some ev, self') ->
  exists c o,
    classify self fr frame_width = Ok (status ev, c, o) /\
    confidence ev = py_round c 3 /\
    offset ev = py_round o 4 /\
    _prev_state self' = Some (status ev) /\
    _last_publish_time self' = now /\
    (_prev_state self <> Some (status ev)
     \/ MIN_PUBLISH_INTERVAL <= now - _last_publish_time self).
Proof.
  unfold compute.
  destruct (classify self fr frame_width) as [[[m c] o]|e]; [|discriminate].
  destruct (prev_is (_prev_state self) m) eqn:Ep;
    destruct (Qle_bool MIN_PUBLISH_INTERVAL (now - _last_publish_time self))
      eqn:Ei; simpl; intros [= <- <-]; simpl; exists c, o;
    repeat split; try discriminate.
  - right. apply Qle_bool_iff. exact Ei.
  - left. apply prev_is_false. exact Ep.
  - left. apply prev_is_false. exact Ep.
Qed.

(** The first observation a new detector sees is always published,
    whatever it shows and whatever the clock reads. *)
Theorem first_observation_is_published
    (dead_zone hysteresis now : Q) (fr : FrameResult) (frame_width : Z) :
  (0 < frame_width)%Z ->
  exists ev self',
    compute MIN_PUBLISH_INTERVAL now fr frame_width
      (init dead_zone hysteresis) = Ok (Some ev, self') /\
    _prev_state self' = Some (status ev) /\
    _last_publish_time self' = now.
Proof.
  intros Hw. unfold compute.
  destruct (classify_total (init dead_zone hysteresis) fr frame_width)
    as (m & c & o & ->); [lia|].
  simpl. eexists _, _. repeat split.
Qed.

(** Two events published one after the other with the same status are at
    least [MIN_PUBLISH_INTERVAL] apart on the clock (computations that
    return nothing in between leave the detector as it is, so they do not
    count). *)
Theorem same_status_events_are_spaced
    (now1 now2 : Q) (fr1 fr2 : FrameResult) (width1 width2 : Z)
    (d0 d1 d2 : Detector) (e1 e2 : Event) :
  compute MIN_PUBLISH_INTERVAL now1 fr1 width1 d0 = Ok (Some e1, d1) ->
  compute MIN_PUBLISH_INTERVAL now2 fr2 width2 d1 = Ok (Some e2, d2) ->
  status e2 = status e1 ->
  MIN_PUBLISH_INTERVAL <= now2 - now1.
Proof.
  intros H1 H2 Hs.
  apply compute_emitted_inv in H1. destruct H1 as (_ & _ & _ & _ & _ & Hp1 & Ht1 & _).
  apply compute_emitted_inv in H2. destruct H2 as (_ & _ & _ & _ & _ & _ & _ & H2).
  rewrite Hp1, Ht1, Hs in H2. destruct H2 as [H2|H2]; [|exact H2].
  destruct H2. reflexivity.
Qed.

(** [compute] raises only for a tracked box on a frame of width zero, and
    then it raises [ZeroDivisionError]. *)
Theorem compute_raises_exactly_on_zero_width
    (now : Q) (fr : FrameResult) (frame_width : Z) (self : Detector) (e : exn) :
  compute MIN_PUBLISH_INTERVAL now fr frame_width self = Raise e <->
  e = ZeroDivisionError /\ frame_width = 0%Z /\
  (exists box, face_box fr = Some box) /\
  (exists s, state fr = Some s /\ s <> "searching"%string).
Proof.
  unfold compute, classify, is_searching.
  destruct (state fr) as [s|].
  - destruct (bool_decide (s = "searching"%string)) eqn:Es.
    + apply bool_decide_eq_true in Es. split.
      * destruct (_ && _); discriminate.
      * intros (_ & _ & _ & s' & [= <-] & Hs). contradiction.
    + apply bool_decide_eq_false in Es.
      destruct (face_box fr) as [[[[x1 y1] x2] y2]|].
      * unfold box_offset. destruct (Z.eqb_spec frame_width 0) as [Hw|Hw].
        -- split.
           ++ intros [= <-]. repeat split; eauto.
           ++ intros (-> & _). reflexivity.
        -- split.
           ++ destruct (_ && _); discriminate.
           ++ intros (_ & Hw' & _). contradiction.
      * split.
        -- destruct (_ && _); discriminate.
        -- intros (_ & _ & [box Hb] & _). discriminate.
  - split.
    + destruct (_ && _); discriminate.
    + intros (_ & _ & _ & s & Hs & _). discriminate.
Qed.

End DetectorEffects.

Lemma first_observation_is_published_witness :
  exists ev self',
    MovementDetector.compute (1 # 2) 1000 MovementDetector.sample_frame 640
      (MovementDetector.init (1 # 10) (5 # 100)) = Ok (Some ev, self') /\
    MovementDetector._prev_state self' = Some (MovementDetector.status ev) /\
    MovementDetector._last_publish_time self' = 1000%Q.
Proof.
  apply (first_observation_is_published (1 # 2) (1 # 10) (5 # 100) 1000
           MovementDetector.sample_frame 640).
  reflexivity.
Defined.

Lemma same_status_events_are_spaced_witness :
  (1 # 2 <= (10006 # 10) - 1000)%Q.
Proof.
  eapply (same_status_events_are_spaced (1 # 2) 1000 (10006 # 10)
            MovementDetector.sample_frame MovementDetector.sample_frame
            640 640 MovementDetector.sample_detector).
  - vm_compute. reflexivity.
  - vm_compute. reflexivity.
  - reflexivity.
Defined.

Section DetectorBand.

Import MovementDetector.

Local Open Scope Q_scope.

Lemma classify_tracked (self : Detector) (fr : FrameResult) (frame_width : Z)
    (s : string) (box : Q * Q * Q * Q) (o : Q) :
  state fr = Some s -> s <> "searching"%string ->
  face_box fr = Some box -> box_offset box frame_width = Ok o ->
  classify self fr frame_width
  = Ok (if Qle_bool (Qabs o) (threshold self) then CENTERED
        else if Qlt_bool o 0 then MOVE_LEFT else MOVE_RIGHT,
        match lock_confidence fr with Some c => c | None => 0 end, o).
Proof.
  intros Hs Hns Hb Ho. unfold classify, is_searching.
  rewrite Hs, Hb, Ho, bool_decide_eq_false_2 by exact Hns. reflexivity.
Qed.

(** In the hysteresis band (dead zone < |offset| <= dead zone +
    hysteresis) a tracked observation is classified as the status last
    published, when that is CENTERED or the MOVE status on the side of the
    offset; so within the publish interval nothing is published and the
    detector is left as it was. *)
Theorem band_keeps_the_last_status
    (MIN_PUBLISH_INTERVAL now : Q) (self : Detector) (fr : FrameResult)
    (frame_width : Z) (s : string) (box : Q * Q * Q * Q) (o : Q) :
  state fr = Some s -> s <> "searching"%string ->
  face_box fr = Some box -> box_offset box frame_width = Ok o ->
  dead_zone_ratio self < Qabs o ->
  Qabs o <= dead_zone_ratio self + hysteresis_ratio self ->
  _prev_state self = Some CENTERED
  \/ (_prev_state self = Some MOVE_LEFT /\ o < 0)
  \/ (_prev_state self = Some MOVE_RIGHT /\ 0 <= o) ->
  exists movement confidence,
    _prev_state self = Some movement /\
    classify self fr frame_width = Ok (movement, confidence, o) /\
    (now - _last_publish_time self < MIN_PUBLISH_INTERVAL ->
     compute MIN_PUBLISH_INTERVAL now fr frame_width self = Ok (None, self)).
Proof.
  intros Hs Hns Hb Ho Hlo Hhi Hprev.
  pose proof (classify_tracked self fr frame_width s box o Hs Hns Hb Ho) as Hc.
  assert (Hm : exists movement,
            _prev_state self = Some movement /\
            (if Qle_bool (Qabs o) (threshold self) then CENTERED
             else if Qlt_bool o 0 then MOVE_LEFT else MOVE_RIGHT) = movement).
  { unfold threshold.
    destruct Hprev as [Hp | [[Hp Hneg] | [Hp Hpos]]]; rewrite Hp; simpl;
      eexists; (split; [reflexivity|]).
    - apply Qle_bool_iff in Hhi. rewrite Hhi. reflexivity.
    - apply Qle_bool_false in Hlo. rewrite Hlo.
      apply Qlt_bool_iff in Hneg. rewrite Hneg. reflexivity.
    - apply Qle_bool_false in Hlo. rewrite Hlo.
      destruct (Qlt_bool o 0) eqn:E; [|reflexivity].
      apply Qlt_bool_iff in E. exfalso. exact (Qlt_not_le _ _ E Hpos). }
  destruct Hm as (m & Hp & Hm). rewrite Hm in Hc.
  exists m. eexists. split; [exact Hp|]. split; [exact Hc|].
  intros Hlt. unfold compute. rewrite Hc.
  apply prev_is_true in Hp. apply Qle_bool_false in Hlt.
  rewrite Hp, Hlt. reflexivity.
Qed.

Lemma band_keeps_the_last_status_witness :
  let self :=
    {| dead_zone_ratio := 1 # 10; hysteresis_ratio := 5 # 100;
       _prev_state := Some CENTERED; _last_publish_time := 1000 |} in
  let fr :=
    {| state := Some "locked"%string; face_box := Some (400, 0, 408, 10);
       lock_confidence := Some (9 # 10) |} in
  exists movement confidence,
    _prev_state self = Some movement /\
    classify self fr 640 = Ok (movement, confidence, (((400 + 408) / 2 - inject_Z 640 / 2) / inject_Z 640)) /\
    (10001 # 10) - _last_publish_time self < 1 # 2 /\
    compute (1 # 2) (10001 # 10) fr 640 self = Ok (None, self).
Proof.
  intros self fr.
  destruct (band_keeps_the_last_status (1 # 2) (10001 # 10) self fr 640
              "locked"%string (400, 0, 408, 10)
              (((400 + 408) / 2 - inject_Z 640 / 2) / inject_Z 640))
    as (m & c & Hp & Hc & Hnone);
    try reflexivity; try discriminate.
  - left. reflexivity.
  - exists m, c. split; [exact Hp|]. split; [exact Hc|].
    split; [reflexivity|]. apply Hnone. reflexivity.
Defined.

(** The history of the detector matters only inside the hysteresis band:
    two detectors with the same ratios, whatever they published last,
    classify alike every observation whose offset is within the dead zone
    or beyond dead zone plus hysteresis. *)
Theorem history_matters_only_in_the_band
    (self self' : Detector) (fr : FrameResult) (frame_width : Z)
    (box : Q * Q * Q * Q) (o : Q) :
  dead_zone_ratio self' = dead_zone_ratio self ->
  hysteresis_ratio self' = hysteresis_ratio self ->
  0 <= hysteresis_ratio self ->
  face_box fr = Some box -> box_offset box frame_width = Ok o ->
  Qabs o <= dead_zone_ratio self
  \/ dead_zone_ratio self + hysteresis_ratio self < Qabs o ->
  classify self fr frame_width = classify self' fr frame_width.
Proof.
  intros Hdz Hhy Hnn Hb Ho Hout.
  assert (Hwide : dead_zone_ratio self
                  <= dead_zone_ratio self + hysteresis_ratio self).
  { rewrite <- (Qplus_0_r (dead_zone_ratio self)) at 1.
    apply Qplus_le_compat; [apply Qle_refl|exact Hnn]. }
  assert (Hthr : forall d : Detector,
            dead_zone_ratio d = dead_zone_ratio self ->
            hysteresis_ratio d = hysteresis_ratio self ->
            Qle_bool (Qabs o) (threshold d)
            = Qle_bool (Qabs o) (dead_zone_ratio self)).
  { intros d H1 H2. unfold threshold. rewrite H1, H2.
    destruct (prev_is _ _); [|reflexivity].
    destruct Hout as [Hin|Hfar].
    - assert (H : Qabs o <= dead_zone_ratio self + hysteresis_ratio self)
        by (apply Qle_trans with (dead_zone_ratio self); assumption).
      apply Qle_bool_iff in H. apply Qle_bool_iff in Hin.
      rewrite H, Hin. reflexivity.
    - assert (H : dead_zone_ratio self < Qabs o)
        by (apply Qle_lt_trans
              with (dead_zone_ratio self + hysteresis_ratio self);
            assumption).
      apply Qle_bool_false in H. apply Qle_bool_false in Hfar.
      rewrite H, Hfar. reflexivity. }
  unfold classify. rewrite Hb, Ho.
  rewrite (Hthr self eq_refl eq_refl), (Hthr self' Hdz Hhy). reflexivity.
Qed.

Lemma history_matters_only_in_the_band_witness :
  let centred :=
    {| dead_zone_ratio := 1 # 10; hysteresis_ratio := 5 # 100;
       _prev_state := Some CENTERED; _last_publish_time := 1000 |} in
  let fr :=
    {| state := Some "locked"%string; face_box := Some (100, 0, 120, 10);
       lock_confidence := Some (9 # 10) |} in
  classify sample_detector fr 640 = classify centred fr 640.
Proof.
  intros centred fr.
  apply (history_matters_only_in_the_band sample_detector centred
           fr 640 (100, 0, 120, 10)
           (((100 + 120) / 2 - inject_Z 640 / 2) / inject_Z 640));
    try reflexivity; try discriminate.
  right. reflexivity.
Defined.

End DetectorBand.

(** ** Rounding and the range of the published fields *)

Lemma round_half_even_floor_or_next (x : Q) :
  round_half_even x = Qfloor x \/ round_half_even x = (Qfloor x + 1)%Z.
Proof.
  unfold round_half_even. destruct (_ ?= _)%Q; auto.
  destruct (Z.even _); auto.
Qed.

(** Rounding to the nearest integer does not cross an integer. *)
Lemma round_half_even_between (lo hi : Z) (x : Q) :
  (inject_Z lo <= x)%Q -> (x <= inject_Z hi)%Q ->
  (lo <= round_half_even x <= hi)%Z.
Proof.
  intros Hlo Hhi.
  assert (Hf1 : (lo <= Qfloor x)%Z).
  { rewrite <- (Qfloor_Z lo). apply Qfloor_resp_le. exact Hlo. }
  assert (Hf2 : (Qfloor x <= hi)%Z).
  { rewrite <- (Qfloor_Z hi). apply Qfloor_resp_le. exact Hhi. }
  split.
  - destruct (round_half_even_floor_or_next x) as [-> | ->]; lia.
  - destruct (Z.eq_dec (Qfloor x) hi) as [E|E].
    + unfold round_half_even.
      assert (Hx : (x - inject_Z (Qfloor x) < 1 # 2)%Q).
      { rewrite E. apply Qle_lt_trans with 0%Q; [|reflexivity].
        apply (Qplus_le_l _ _ (inject_Z hi)). ring_simplify. exact Hhi. }
      assert (Hcmp : (x - inject_Z (Qfloor x) ?= 1 # 2)%Q = Lt)
        by (apply Qlt_alt; exact Hx).
      rewrite Hcmp. lia.
    + destruct (round_half_even_floor_or_next x) as [-> | ->]; lia.
Qed.

(** [round(x, ndigits)] stays between two bounds that are themselves
    multiples of the rounding unit. *)
Lemma py_round_between (lo hi : Z) (x : Q) (ndigits : nat) :
  let scale := inject_Z (10 ^ Z.of_nat ndigits) in
  (inject_Z lo / scale <= x)%Q -> (x <= inject_Z hi / scale)%Q ->
  (inject_Z lo / scale <= py_round x ndigits <= inject_Z hi / scale)%Q.
Proof.
  intros scale Hlo Hhi.
  assert (Hs : (0 < scale)%Q).
  { unfold scale. change 0%Q with (inject_Z 0). rewrite <- Zlt_Qlt.
    apply Z.pow_pos_nonneg; lia. }
  assert (Hinv : (0 <= / scale)%Q) by (apply Qlt_le_weak, Qinv_lt_0_compat, Hs).
  assert (Hne : ~ (scale == 0)%Q).
  { intros E. rewrite E in Hs. exact (Qlt_irrefl 0 Hs). }
  destruct (round_half_even_between lo hi (x * scale)) as [H1 H2].
  - apply Qle_trans with (inject_Z lo / scale * scale)%Q.
    + apply Qle_lteq. right. field. exact Hne.
    + apply Qmult_le_compat_r; [exact Hlo|apply Qlt_le_weak, Hs].
  - apply Qle_trans with (inject_Z hi / scale * scale)%Q.
    + apply Qmult_le_compat_r; [exact Hhi|apply Qlt_le_weak, Hs].
    + apply Qle_lteq. right. field. exact Hne.
  - unfold py_round. fold scale. unfold Qdiv. split;
      (apply Qmult_le_compat_r; [rewrite <- Zle_Qle; assumption|exact Hinv]).
Qed.

Section DetectorRanges.

Import MovementDetector.

Local Open Scope Q_scope.

(** When the centre of every reported box lies within the frame and the
    reported confidence lies within 0..1, every event published has its
    offset within -0.5..0.5 and its confidence within 0..1. *)
Theorem published_fields_are_in_range
    (MIN_PUBLISH_INTERVAL now : Q) (fr : FrameResult) (frame_width : Z)
    (self self' : Detector) (ev : Event) :
  (0 < frame_width)%Z ->
  (forall x1 y1 x2 y2,
     face_box fr = Some (x1, y1, x2, y2) ->
     0 <= (x1 + x2) / 2 <= inject_Z frame_width) ->
  (forall c, lock_confidence fr = Some c -> 0 <= c <= 1) ->
  compute MIN_PUBLISH_INTERVAL now fr frame_width self = Ok (Some ev, self') ->
  (- (1 # 2) <= offset ev <= 1 # 2) /\ (0 <= confidence ev <= 1).
Proof.
  intros Hw Hbox Hconf Hev.
  apply compute_emitted_inv in Hev.
  destruct Hev as (c & o & Hc & -> & -> & _).
  assert (Hr : (- (1 # 2) <= o <= 1 # 2) /\ (0 <= c <= 1)).
  { unfold classify in Hc.
    destruct (is_searching fr);
      [injection Hc as _ <- <-; repeat split; discriminate|].
    destruct (face_box fr) as [[[[x1 y1] x2] y2]|] eqn:Eb;
      [|injection Hc as _ <- <-; repeat split; discriminate].
    unfold box_offset in Hc.
    destruct (Z.eqb_spec frame_width 0) as [|_]; [lia|].
    injection Hc as _ <- <-.
    assert (Hpos : 0 < inject_Z frame_width).
    { change 0 with (inject_Z 0). rewrite <- Zlt_Qlt. exact Hw. }
    destruct (Hbox x1 y1 x2 y2 eq_refl) as [Hc0 Hc1].
    split.
    - split.
      + apply Qle_shift_div_l; [exact Hpos|].
        apply (Qplus_le_l _ _ (inject_Z frame_width / 2)). ring_simplify.
        apply Qle_trans with 0; [|exact Hc0].
        apply Qle_lteq. right. field.
      + apply Qle_shift_div_r; [exact Hpos|].
        apply (Qplus_le_l _ _ (inject_Z frame_width / 2)). ring_simplify.
        apply Qle_trans with (inject_Z frame_width); [exact Hc1|].
        apply Qle_lteq. right. field.
    - destruct (lock_confidence fr) as [c'|]; [apply Hconf; reflexivity|].
      split; discriminate. }
  destruct Hr as [[Ho1 Ho2] [Hc1 Hc2]].
  pose proof (py_round_between (-5000) 5000 o 4) as Hro.
  pose proof (py_round_between 0 1000 c 3) as Hrc.
  cbv zeta in Hro, Hrc.
  assert (E1 : inject_Z (-5000) / inject_Z (10 ^ Z.of_nat 4) == - (1 # 2))
    by reflexivity.
  assert (E2 : inject_Z 5000 / inject_Z (10 ^ Z.of_nat 4) == 1 # 2)
    by reflexivity.
  assert (E3 : inject_Z 0 / inject_Z (10 ^ Z.of_nat 3) == 0) by reflexivity.
  assert (E4 : inject_Z 1000 / inject_Z (10 ^ Z.of_nat 3) == 1) by reflexivity.
  rewrite E1, E2 in Hro. rewrite E3, E4 in Hrc.
  split; [apply Hro|apply Hrc]; assumption.
Qed.

Lemma published_fields_are_in_range_witness :
  exists ev,
    compute (1 # 2) 1000 sample_frame 640 sample_detector
    = Ok (Some ev,
          {| dead_zone_ratio := 1 # 10; hysteresis_ratio := 5 # 100;
             _prev_state := Some MOVE_LEFT; _last_publish_time := 1000 |}) /\
    (- (1 # 2) <= offset ev <= 1 # 2) /\ (0 <= confidence ev <= 1).
Proof.
  eexists. split; [vm_compute; reflexivity|].
  eapply (published_fields_are_in_range (1 # 2) 1000 sample_frame 640
            sample_detector).
  - reflexivity.
  - intros x1 y1 x2 y2 [= <- _ <- _]. split; discriminate.
  - intros c [= <-]. split; discriminate.
  - vm_compute. reflexivity.
Defined.

End DetectorRanges.

(** ** The upload: chunks and what the board writes *)

Section UploadFacts.

Import Stdlib.Strings.Ascii Stdlib.Strings.String.
Import Upload.

Lemma substring_empty (i m : nat) : substring i m EmptyString = EmptyString.
Proof. destruct i, m; reflexivity. Qed.

Lemma substring_skip (n i m : nat) (s : string) :
  substring (n + i) m s = substring i m (skip n s).
Proof.
  revert s. induction n as [|n IH]; intros s; [reflexivity|].
  destruct s as [|c s]; simpl.
  - symmetry. apply substring_empty.
  - apply IH.
Qed.

Lemma substring_append_skip (n : nat) (s : string) :
  (substring 0 n s ++ skip n s)%string = s.
Proof.
  revert s. induction n as [|n IH]; intros s.
  - destruct s; reflexivity.
  - destruct s as [|c s]; simpl; [reflexivity|].
    change (String c (substring 0 n s ++ skip n s)%string = String c s).
    f_equal. apply IH.
Qed.

Lemma length_skip (n : nat) (s : string) :
  String.length (skip n s) = String.length s - n.
Proof.
  revert s. induction n as [|n IH]; intros s; simpl; [lia|].
  destruct s as [|c s]; simpl; [reflexivity|]. apply IH.
Qed.

Lemma length_substring_0 (n : nat) (s : string) :
  String.length (substring 0 n s) = Nat.min n (String.length s).
Proof.
  revert s. induction n as [|n IH]; intros s.
  - destruct s; reflexivity.
  - destruct s as [|c s]; simpl; [reflexivity|]. rewrite IH. reflexivity.
Qed.

Lemma pieces_empty (size : nat) : 0 < size -> pieces size EmptyString = [].
Proof.
  intros H. unfold pieces, py_range. simpl.
  rewrite Nat.div_small by lia. reflexivity.
Qed.

Lemma pieces_unfold (size : nat) (s : string) :
  0 < size -> s <> EmptyString ->
  pieces size s = substring 0 size s :: pieces size (skip size s).
Proof.
  intros Hsize Hs. unfold pieces, py_range, slice.
  assert (Hlen : 0 < String.length s) by (destruct s; [congruence|simpl; lia]).
  rewrite length_skip.
  assert (Hk : (String.length s + size - 1) / size
               = S ((String.length s - size + size - 1) / size)).
  { destruct (Nat.le_gt_cases size (String.length s)) as [Hge|Hlt].
    - replace (String.length s + size - 1)
        with ((String.length s - size + size - 1) + 1 * size) by lia.
      rewrite Nat.div_add by lia. lia.
    - replace (String.length s - size + size - 1) with (size - 1) by lia.
      rewrite (Nat.div_small (size - 1)) by lia.
      replace (String.length s + size - 1)
        with ((String.length s - 1) + 1 * size) by lia.
      rewrite Nat.div_add by lia. rewrite Nat.div_small by lia. reflexivity. }
  rewrite Hk. simpl seq. rewrite <- seq_shift, !map_map. simpl.
  rewrite map_map. f_equal.
  - f_equal. lia.
  - apply map_ext. intros k.
    replace (S k * size + size - S k * size) with size by lia.
    replace (k * size + size - k * size) with size by lia.
    replace (S k * size) with (size + k * size) by lia.
    apply substring_skip.
Qed.

Lemma pieces_ind (size : nat) (P : string -> list string -> Prop) :
  0 < size ->
  P EmptyString [] ->
  (forall s, s <> EmptyString ->
     P (skip size s) (pieces size (skip size s)) ->
     P s (substring 0 size s :: pieces size (skip size s))) ->
  forall s, P s (pieces size s).
Proof.
  intros Hsize Hnil Hcons s.
  remember (String.length s) as n eqn:Hn. revert s Hn.
  induction n as [n IH] using lt_wf_ind. intros s Hn.
  destruct s as [|c s'] eqn:Es.
  - rewrite pieces_empty by exact Hsize. exact Hnil.
  - rewrite <- Es in *. rewrite pieces_unfold by (try exact Hsize; congruence).
    apply Hcons; [congruence|].
    apply (IH (String.length (skip size s))); [|reflexivity].
    rewrite length_skip. subst n s. simpl. lia.
Qed.

Lemma concat_pieces (size : nat) (s : string) :
  0 < size -> fold_right append EmptyString (pieces size s) = s.
Proof.
  intros Hsize.
  apply (pieces_ind size
           (fun s l => fold_right append EmptyString l = s) Hsize).
  - reflexivity.
  - intros s' _ IH. simpl. rewrite IH. apply substring_append_skip.
Qed.

Lemma pieces_lengths (size : nat) (s piece : string) :
  0 < size -> In piece (pieces size s) ->
  0 < String.length piece <= size.
Proof.
  intros Hsize. revert piece.
  apply (pieces_ind size
           (fun s l => forall piece, In piece l ->
                                     0 < String.length piece <= size) Hsize).
  - intros piece [].
  - intros s' Hs' IH piece [<- | Hin]; [|apply IH; exact Hin].
    rewrite length_substring_0.
    destruct s'; [congruence|simpl; lia].
Qed.

Lemma hex_byte_round_trip (c : ascii) :
  hex_value (hex_digit (N_of_ascii c / 16)) = Some (N_of_ascii c / 16)%N /\
  hex_value (hex_digit (N_of_ascii c mod 16)) = Some (N_of_ascii c mod 16)%N /\
  ascii_of_N (16 * (N_of_ascii c / 16) + N_of_ascii c mod 16) = c.
Proof.
  destruct c as [[] [] [] [] [] [] [] []]; vm_compute; repeat split.
Qed.

Lemma fromhex_hexlify (content : string) :
  fromhex (hexlify content) = Some content.
Proof.
  induction content as [|c rest IH]; [reflexivity|].
  destruct (hex_byte_round_trip c) as (H1 & H2 & H3).
  cbn [hexlify fromhex]. rewrite H1, H2, IH, H3. reflexivity.
Qed.

Lemma length_hexlify (content : string) :
  String.length (hexlify content) = 2 * String.length content.
Proof. induction content as [|c rest IH]; simpl; [reflexivity|]. lia. Qed.

Lemma substring_hexlify (n : nat) (content : string) :
  substring 0 (2 * n) (hexlify content) = hexlify (substring 0 n content).
Proof.
  revert content. induction n as [|n IH]; intros content.
  - destruct content; reflexivity.
  - destruct content as [|c rest]; [reflexivity|].
    replace (2 * S n) with (S (S (2 * n))) by lia.
    cbn [hexlify substring]. rewrite IH. reflexivity.
Qed.

Lemma skip_hexlify (n : nat) (content : string) :
  skip (2 * n) (hexlify content) = hexlify (skip n content).
Proof.
  revert content. induction n as [|n IH]; intros content; [reflexivity|].
  destruct content as [|c rest]; [reflexivity|].
  replace (2 * S n) with (S (S (2 * n))) by lia.
  cbn [hexlify skip]. apply IH.
Qed.

(** The chunks of the hexadecimal text are the hexadecimal texts of the
    chunks of the content: no chunk boundary falls inside a byte. *)
Lemma pieces_hexlify (size : nat) (content : string) :
  0 < size ->
  pieces (2 * size) (hexlify content) = map hexlify (pieces size content).
Proof.
  intros Hsize.
  apply (pieces_ind size
           (fun s l => pieces (2 * size) (hexlify s) = map hexlify l) Hsize).
  - apply pieces_empty. lia.
  - intros s Hs IH. rewrite pieces_unfold.
    + rewrite substring_hexlify, skip_hexlify, IH. reflexivity.
    + lia.
    + destruct s; [congruence|discriminate].
Qed.

Lemma written_write_chunks (parts : list string) (gc_counter : nat) :
  written (write_chunks (map hexlify parts) gc_counter
           ++ [CloseFile; GcCollect])
  = Some (fold_right append EmptyString parts).
Proof.
  revert gc_counter. induction parts as [|part rest IH]; intros gc_counter;
    [reflexivity|].
  cbn [map write_chunks]. rewrite <- app_comm_cons. cbn [written].
  rewrite fromhex_hexlify.
  destruct (8 <=? gc_counter + 1).
  - rewrite <- app_comm_cons. cbn [written]. rewrite IH. reflexivity.
  - rewrite IH. reflexivity.
Qed.

Lemma In_write_chunks (chunks : list string) (gc_counter : nat)
    (chunk : string) :
  In (WriteHex chunk) (write_chunks chunks gc_counter) -> In chunk chunks.
Proof.
  revert gc_counter. induction chunks as [|c rest IH]; intros gc_counter;
    [intros []|].
  cbn [write_chunks]. intros [[= <-] | Hin]; [left; reflexivity|].
  right. destruct (8 <=? gc_counter + 1).
  - destruct Hin as [Hin | Hin]; [discriminate|]. exact (IH _ Hin).
  - exact (IH _ Hin).
Qed.

(** The upload keeps the file: the bytes the board appends to the remote
    file, write after write, are the content of the local file. *)
Theorem upload_writes_the_content (content remote_path : string) :
  written (upload_file_raw content remote_path) = Some content.
Proof.
  unfold upload_file_raw. cbn [app written].
  change 256 with (2 * 128).
  rewrite (pieces_hexlify 128 content) by lia.
  rewrite written_write_chunks, concat_pieces by lia. reflexivity.
Qed.

(** Every chunk sent holds between 1 and 128 whole bytes, as at most 256
    hexadecimal digits, and the board decodes it alone without error. *)
Theorem upload_chunks_are_small_and_whole
    (content remote_path chunk : string) :
  In (WriteHex chunk) (upload_file_raw content remote_path) ->
  exists bytes,
    chunk = hexlify bytes /\
    fromhex chunk = Some bytes /\
    0 < String.length bytes <= 128 /\
    String.length chunk = 2 * String.length bytes.
Proof.
  unfold upload_file_raw. intros Hin. cbn [app] in Hin.
  destruct Hin as [Hin | [Hin | Hin]]; try discriminate.
  apply in_app_or in Hin.
  destruct Hin as [Hin | [Hin | [Hin | []]]]; try discriminate.
  apply In_write_chunks in Hin.
  change 256 with (2 * 128) in Hin.
  rewrite (pieces_hexlify 128 content) in Hin by lia.
  apply in_map_iff in Hin. destruct Hin as (bytes & <- & Hin).
  exists bytes. split; [reflexivity|]. split; [apply fromhex_hexlify|].
  split; [apply (pieces_lengths 128 content); [lia|exact Hin]|].
  apply length_hexlify.
Qed.

Lemma upload_chunks_are_small_and_whole_witness :
  exists bytes,
    "68690a"%string = hexlify bytes /\
    fromhex "68690a" = Some bytes /\
    0 < String.length bytes <= 128 /\
    String.length "68690a" = 2 * String.length bytes.
Proof.
  apply (upload_chunks_are_small_and_whole
           (String "h" (String "i" (String (ascii_of_N 10) EmptyString)))
           "boot.py" "68690a").
  vm_compute. right. right. left. reflexivity.
Defined.

(** A collection is requested after every eighth write: the loop over [n]
    chunks holds [n / 8] of them. *)
Theorem a_collection_every_eight_writes (chunks : list string) :
  List.length
    (List.filter (fun c => match c with GcCollect => true | _ => false end)
       (write_chunks chunks 0))
  = List.length chunks / 8.
Proof.
  assert (H : forall gc_counter, gc_counter < 8 ->
            List.length
              (List.filter (fun c => match c with GcCollect => true | _ => false end)
                 (write_chunks chunks gc_counter))
            = (List.length chunks + gc_counter) / 8).
  { induction chunks as [|c rest IH]; intros g Hg.
    - cbn [write_chunks List.filter List.length]. rewrite Nat.add_0_l.
      symmetry. apply Nat.div_small. exact Hg.
    - cbn [write_chunks List.filter List.length].
      destruct (Nat.leb_spec 8 (g + 1)) as [H8|H8].
      + cbn [List.filter List.length]. rewrite IH by lia.
        replace (S (List.length rest) + g)
          with (List.length rest + 0 + 1 * 8) by lia.
        rewrite Nat.div_add by lia. lia.
      + rewrite IH by lia. f_equal. lia. }
  rewrite H by lia. f_equal. lia.
Qed.

(** What [exec_raw] writes for a statement is the statement followed by
    Ctrl+D, in writes of at most 128 bytes, none of them empty. *)
Theorem exec_raw_sends_the_code_in_small_writes (encoded : string) :
  fold_right append EmptyString (exec_raw_writes encoded)
  = (encoded ++ String (ascii_of_N 4) EmptyString)%string /\
  forall piece, In piece (exec_raw_writes encoded) ->
    0 < String.length piece <= 128.
Proof.
  unfold exec_raw_writes. split.
  - rewrite fold_right_app.
    generalize (String (ascii_of_N 4) EmptyString). intros tail.
    cbn [fold_right].
    apply (pieces_ind 128
             (fun s l => fold_right append (tail ++ "")%string l
                         = (s ++ tail)%string)); [lia| |].
    + cbn [fold_right]. clear. induction tail as [|c t IH]; [reflexivity|].
      change (String c (t ++ "")%string = String c t). f_equal. exact IH.
    + intros s _ IH. cbn [fold_right]. rewrite IH.
      rewrite <- (substring_append_skip 128 s) at 3.
      generalize (substring 0 128 s) (skip 128 s). clear.
      intros a b. induction a as [|c a IH]; [reflexivity|].
      change (String c (a ++ (b ++ tail))%string
              = String c ((a ++ b) ++ tail)%string).
      f_equal. exact IH.
  - intros piece Hin. apply in_app_or in Hin.
    destruct Hin as [Hin | [<- | []]].
    + apply (pieces_lengths 128 encoded); [lia|exact Hin].
    + simpl. lia.
Qed.

End UploadFacts.
